(** * meeting-bot: the job supervisor, its retry executor and the lobby poll

    A shallow embedding of [src/lib/JobStore.ts] (class [JobStore]) and of
    the interval/timeout pairs of the Zoom bot ([joinMeeting] and
    [dismissDeviceNotifications]).

    JavaScript runs these on one thread with cooperative suspension: code
    between two [await]s is atomic.  The embedding therefore has one
    transition per atomic block, driven by the events of the event loop
    (a call from outside, a promise settling, a timer firing). *)

From Equations Require Import Equations.
From Equations.Prop Require Import Logic.
From stdpp Require Import gmap strings list fin_maps.
From Stdlib Require Import ZArith Lia.

Local Open Scope Z_scope.

(* ===================================================================== *)
(** * Part I: definitions *)
(* ===================================================================== *)

(** ** Errors and task behaviour *)

(** Modelled from the spec: the class [KnownError] of [src/error.ts], which
    [JobStore.ts] imports and only reads through [instanceof] and the fields
    [name], [retryable] and [maxRetries] (the spec's ErrorClassification
    [{ retryable: bool, maxRetries: integer, kind: string }]).  Every other
    thrown value is an [OtherError]: it fails the [instanceof] test. *)
Inductive error : Type :=
| KnownError (name : string) (retryable : bool) (maxRetries : Z)
| OtherError (name : string).

(** What one invocation [task()] does once it settles: the promise
    resolves, or it rejects (a synchronous throw inside [task] lands in
    the same [catch], the call being inside the [try]). *)
Inductive outcome : Type :=
| Resolves
| Rejects (e : error).

(** A task body [() => Promise<T>] is a closure and may behave differently
    each time: [task n] is the outcome of its invocation number [n],
    counted from 0. *)
Definition task_body : Type := nat -> outcome.

(** A settled promise of [Promise<void>]. *)
Inductive settled : Type :=
| Fulfilled
| Rejected (e : error).

(** ** Logging: one constructor per logging site of [JobStore.ts] *)
Inductive logline : Type :=
| LogNotRetryable (e : error)              (* line 68 *)
| LogTriesConsumed (e : error)             (* line 73 *)
| LogRetryCount (retryCount : Z)           (* line 81 *)
| LogQueued (jobId : string)               (* line 55 *)
| LogFinished (jobId : string)             (* line 42 *)
| LogKnownExit (jobId : string) (e : error)       (* line 46 *)
| LogAfterRetries (jobId : string) (e : error)    (* line 48 *)
| LogPermanentlyFailed (jobId : string) (e : error) (* line 50 *)
| ConsoleWaiting (active : nat)            (* line 133 *)
| ConsoleAllCompleted.                     (* line 138 *)

(** ** The retry executor, in one piece *)

(** What [executeTaskWithRetry] does, in order. *)
Inductive action : Type :=
| Invoke (n : nat)        (* [await task()], invocation number [n] *)
| Sleep (ms : Z)          (* [await sleep(ms)] *)
| Log (l : logline).

(** Line 67: [error instanceof KnownError && !error.retryable]. *)
Definition notRetryable (e : error) : bool :=
  match e with
  | KnownError _ retryable _ => negb retryable
  | OtherError _ => false
  end.

(** Line 72: [error instanceof KnownError && error.retryable &&
    (retryCount + 1) >= error.maxRetries]. *)
Definition triesConsumed (e : error) (retryCount : Z) : bool :=
  match e with
  | KnownError _ retryable maxRetries => retryable && (retryCount + 1 >=? maxRetries)
  | OtherError _ => false
  end.

(** Line 78: the argument of [sleep], [retryCount * 30000], with
    [retryCount] already incremented. *)
Definition backoffUnitMs : Z := 30000.
Definition sleepMs (retryCount : Z) : Z := retryCount * backoffUnitMs.

(** Line 79: the hardcoded cap of [retryCount < 3]. *)
Definition retryCap : Z := 3.

(** Lines 80-82: [if (retryCount) logger.warn(...)]; 0 is falsy. *)
Definition warnRetry (retryCount : Z) : list logline :=
  if retryCount =? 0 then [] else [LogRetryCount retryCount].

(** [executeTaskWithRetry(task, logger, retryCount)], lines 59-88, as the
    list of its actions and the way its promise settles.  [n] counts the
    invocations of [task] made so far by the enclosing calls.  The
    recursion of line 83 is taken only under [retryCount < 3], with
    [retryCount] one larger: [3 - retryCount] decreases.  A rejection of the
    recursive call leaves through the [catch] block it is awaited in, so it
    is the rejection of the whole call. *)
Equations? executeTaskWithRetry (task : task_body) (retryCount : Z) (n : nat)
  : list action * settled by wf (Z.to_nat (retryCap - retryCount)) lt :=
executeTaskWithRetry task retryCount n with task n := {
  | Resolves => ([Invoke n], Fulfilled)
  | Rejects e with notRetryable e := {
    | true => ([Invoke n; Log (LogNotRetryable e)], Rejected e)
    | false with triesConsumed e retryCount := {
      | true => ([Invoke n; Log (LogTriesConsumed e)], Rejected e)
      | false with inspect (retryCount + 1 <? retryCap) := {
        | exist _ true Hlt =>
            let rest := executeTaskWithRetry task (retryCount + 1) (S n) in
            (Invoke n :: Sleep (sleepMs (retryCount + 1))
               :: map Log (warnRetry (retryCount + 1)) ++ rest.1,
             rest.2)
        | exist _ false Hge =>
            ([Invoke n; Sleep (sleepMs (retryCount + 1))], Rejected e) } } } }.
Proof. apply Z.ltb_lt in Hlt. unfold retryCap in *. lia. Qed.

(** Observations on a run of the executor. *)
Fixpoint invocations (tr : list action) : nat :=
  match tr with
  | [] => 0
  | Invoke _ :: tr' => S (invocations tr')
  | _ :: tr' => invocations tr'
  end%nat.

(** The waits of a run, in order. *)
Fixpoint waits (tr : list action) : list Z :=
  match tr with
  | [] => []
  | Sleep ms :: tr' => ms :: waits tr'
  | _ :: tr' => waits tr'
  end.

(** The waits at the head of a run, up to its next invocation. *)
Fixpoint waitsUntilInvoke (tr : list action) : list Z :=
  match tr with
  | [] => []
  | Invoke _ :: _ => []
  | Sleep ms :: tr' => ms :: waitsUntilInvoke tr'
  | Log _ :: tr' => waitsUntilInvoke tr'
  end.

(** The waits that follow invocation number [k], up to the next
    invocation (or to the end of the run when there is none). *)
Fixpoint waitsAfter (k : nat) (tr : list action) : list Z :=
  match tr with
  | [] => []
  | Invoke n :: tr' => if (n =? k)%nat then waitsUntilInvoke tr' else waitsAfter k tr'
  | _ :: tr' => waitsAfter k tr'
  end.

(** Whether a wait is the last thing a run does before it settles: a
    backoff that no attempt follows. *)
Fixpoint endsWithSleep (tr : list action) : option Z :=
  match tr with
  | [] => None
  | [Sleep ms] => Some ms
  | _ :: tr' => endsWithSleep tr'
  end.

(** ** The job registry *)

(** [interface JobInfo]; [startedAt] is the clock reading of [new Date()]
    in milliseconds, [metadata] an opaque value. *)
Record JobInfo : Type := mkJobInfo {
  jobId : string;
  startedAt : Z;
  metadata : option string
}.

(** The fields of [class JobStore]. *)
Record JobStore : Type := mkJobStore {
  jobs : gmap string JobInfo;
  maxConcurrent : Z;
  shutdownRequested : bool
}.

(** [constructor(maxConcurrent: number = 3)]. *)
Definition defaultMaxConcurrent : Z := 3.

Definition newJobStore (maxConcurrent : Z) : JobStore :=
  {| jobs := ∅; maxConcurrent := maxConcurrent; shutdownRequested := false |}.

(** The read-only methods, lines 90-115. *)
Definition getActiveCount (s : JobStore) : Z := Z.of_nat (size (jobs s)).
Definition getMaxConcurrent (s : JobStore) : Z := maxConcurrent s.
Definition isFull (s : JobStore) : bool := getActiveCount s >=? maxConcurrent s.
Definition isBusy (s : JobStore) : bool := getActiveCount s >=? maxConcurrent s.
Definition isShutdownRequested (s : JobStore) : bool := shutdownRequested s.
Definition getActiveJobs (s : JobStore) : list JobInfo := (map_to_list (jobs s)).*2.

(** ** The event loop around the registry *)

(** Where the detached call [this.executeTaskWithRetry(task, logger,
    retryCount)] of line 41 stands.  It is suspended in one of its two
    [await]s, or its promise has settled and the callbacks of lines 41-53
    are queued, or they have run. *)
Inductive exec_state : Type :=
| AwaitingTask (retryCount : Z) (n : nat)             (* line 65, invocation [n] *)
| Sleeping (retryCount : Z) (e : error) (n : nat)     (* line 78, [retryCount] incremented *)
| Settled (r : settled)
| Finished.

Record Execution : Type := mkExecution {
  ex_jobId : string;
  ex_task : task_body;
  ex_state : exec_state
}.

(** The promise returned by one call of [waitForCompletion]: resolved, or
    pending on the [setTimeout(checkCompletion, ms)] of line 141. *)
Inductive waiter : Type :=
| WaitResolved
| WaitTimer (ms : Z).

(** The store with everything the event loop holds for it: the detached
    executions in the order they were started, the pending drains, and
    what was logged. *)
Record Runtime : Type := mkRuntime {
  store : JobStore;
  execs : list Execution;
  waiters : list waiter;
  logs : list logline
}.

Definition boot (maxConcurrent : Z) : Runtime :=
  {| store := newJobStore maxConcurrent; execs := []; waiters := []; logs := [] |}.

(** [addJob], lines 23-57: the guard of line 30, the [jobs.set] of line
    34, the start of the detached execution of line 41 (which runs up to
    its first [await], that is, invokes [task] for the first time), the
    log of line 55.  There is no [await] in the body: it is one atomic
    block. *)
Definition addJob (jobId : string) (task : task_body) (metadata : option string)
    (now : Z) (retryCount : Z) (rt : Runtime) : Runtime * bool :=
  if (getActiveCount (store rt) >=? maxConcurrent (store rt))
     || shutdownRequested (store rt)
  then (rt, false)
  else
    ({| store := {| jobs := <[jobId := mkJobInfo jobId now metadata]> (jobs (store rt));
                    maxConcurrent := maxConcurrent (store rt);
                    shutdownRequested := shutdownRequested (store rt) |};
        execs := execs rt ++ [mkExecution jobId task (AwaitingTask retryCount 0)];
        waiters := waiters rt;
        logs := logs rt ++ [LogQueued jobId] |},
     true).

(** [requestShutdown], lines 120-122. *)
Definition requestShutdown (rt : Runtime) : Runtime :=
  {| store := {| jobs := jobs (store rt);
                 maxConcurrent := maxConcurrent (store rt);
                 shutdownRequested := true |};
     execs := execs rt; waiters := waiters rt; logs := logs rt |}.

(** The catch block of lines 66-87 up to its [await sleep]: where the
    execution goes when invocation [n] of its task settles, and what it
    logs. *)
Definition onTaskSettled (task : task_body) (retryCount : Z) (n : nat)
  : exec_state * list logline :=
  match task n with
  | Resolves => (Settled Fulfilled, [])
  | Rejects e =>
      if notRetryable e then (Settled (Rejected e), [LogNotRetryable e])
      else if triesConsumed e retryCount then (Settled (Rejected e), [LogTriesConsumed e])
      else (Sleeping (retryCount + 1) e n, [])
  end.

(** Lines 79-86, after the sleep: recurse (and so invoke the task again)
    or rethrow. *)
Definition onSleepElapsed (retryCount : Z) (e : error) (n : nat)
  : exec_state * list logline :=
  if retryCount <? retryCap
  then (AwaitingTask retryCount (S n), warnRetry retryCount)
  else (Settled (Rejected e), []).

(** The callbacks of lines 41-50: [then] logs success, [catch] logs the
    failure twice. *)
Definition chainLogs (jobId : string) (r : settled) : list logline :=
  match r with
  | Fulfilled => [LogFinished jobId]
  | Rejected e =>
      [match e with
       | KnownError _ _ _ => LogKnownExit jobId e
       | OtherError _ => LogAfterRetries jobId e
       end;
       LogPermanentlyFailed jobId e]
  end.

Definition setExec (pid : nat) (x : Execution) (st : exec_state) (ls : list logline)
    (rt : Runtime) : Runtime :=
  {| store := store rt;
     execs := <[pid := mkExecution (ex_jobId x) (ex_task x) st]> (execs rt);
     waiters := waiters rt;
     logs := logs rt ++ ls |}.

(** The callbacks of lines 41-53 for a settled execution: the logs of
    [then] or [catch], then the [finally] of line 52, [jobs.delete(jobId)]. *)
Definition runChain (pid : nat) (x : Execution) (r : settled) (rt : Runtime) : Runtime :=
  {| store := {| jobs := delete (ex_jobId x) (jobs (store rt));
                 maxConcurrent := maxConcurrent (store rt);
                 shutdownRequested := shutdownRequested (store rt) |};
     execs := <[pid := mkExecution (ex_jobId x) (ex_task x) Finished]> (execs rt);
     waiters := waiters rt;
     logs := logs rt ++ chainLogs (ex_jobId x) r |}.

(** [checkCompletion], lines 136-143: resolve on an empty registry, else
    arm a timer of one second. *)
Definition checkCompletion (rt : Runtime) : waiter * list logline :=
  if (size (jobs (store rt)) =? 0)%nat
  then (WaitResolved, [ConsoleAllCompleted])
  else (WaitTimer 1000, []).

(** [waitForCompletion], lines 128-146.  The early [return] of line 130
    hands back a resolved promise and arms no timer; otherwise the first
    [checkCompletion()] of line 144 runs inside the call. *)
Definition waitForCompletion (rt : Runtime) : Runtime :=
  if (size (jobs (store rt)) =? 0)%nat
  then {| store := store rt; execs := execs rt;
          waiters := waiters rt ++ [WaitResolved]; logs := logs rt |}
  else
    let rt1 := {| store := store rt; execs := execs rt; waiters := waiters rt;
                  logs := logs rt ++ [ConsoleWaiting (size (jobs (store rt)))] |} in
    {| store := store rt1; execs := execs rt1;
       waiters := waiters rt1 ++ [(checkCompletion rt1).1];
       logs := logs rt1 ++ (checkCompletion rt1).2 |}.

(** What the event loop can run next. *)
Inductive event : Type :=
| CallAddJob (jobId : string) (task : task_body) (metadata : option string)
    (now : Z) (retryCount : Z)
| CallRequestShutdown
| CallWaitForCompletion
| TaskSettles (pid : nat)      (* the [task()] awaited by execution [pid] settles *)
| SleepElapses (pid : nat)     (* the timer of its [sleep] fires *)
| ChainRuns (pid : nat)        (* its [then]/[catch]/[finally] callbacks run *)
| DrainTimer (wid : nat).      (* the timer of drain [wid] fires *)

(** One atomic block.  [None]: the event cannot happen in this state (no
    such execution, or it is not waiting for that). *)
Definition step (ev : event) (rt : Runtime) : option Runtime :=
  match ev with
  | CallAddJob jobId task metadata now retryCount =>
      Some (addJob jobId task metadata now retryCount rt).1
  | CallRequestShutdown => Some (requestShutdown rt)
  | CallWaitForCompletion => Some (waitForCompletion rt)
  | TaskSettles pid =>
      match execs rt !! pid with
      | Some x =>
          match ex_state x with
          | AwaitingTask retryCount n =>
              let r := onTaskSettled (ex_task x) retryCount n in
              Some (setExec pid x r.1 r.2 rt)
          | _ => None
          end
      | None => None
      end
  | SleepElapses pid =>
      match execs rt !! pid with
      | Some x =>
          match ex_state x with
          | Sleeping retryCount e n =>
              let r := onSleepElapsed retryCount e n in
              Some (setExec pid x r.1 r.2 rt)
          | _ => None
          end
      | None => None
      end
  | ChainRuns pid =>
      match execs rt !! pid with
      | Some x =>
          match ex_state x with
          | Settled r => Some (runChain pid x r rt)
          | _ => None
          end
      | None => None
      end
  | DrainTimer wid =>
      match waiters rt !! wid with
      | Some (WaitTimer _) =>
          Some {| store := store rt; execs := execs rt;
                  waiters := <[wid := (checkCompletion rt).1]> (waiters rt);
                  logs := logs rt ++ (checkCompletion rt).2 |}
      | _ => None
      end
  end.

(** A schedule of the event loop. *)
Fixpoint run (evs : list event) (rt : Runtime) : option Runtime :=
  match evs with
  | [] => Some rt
  | ev :: evs' =>
      match step ev rt with
      | Some rt' => run evs' rt'
      | None => None
      end
  end.

(** The states a process started with [new JobStore(maxConcurrent)] can
    be in. *)
Definition reachable (maxConcurrent : Z) (rt : Runtime) : Prop :=
  ∃ evs, run evs (boot maxConcurrent) = Some rt.

(** The events that carry one execution to its end, read off the actions
    of [executeTaskWithRetry]: every [await] is one event. *)
Fixpoint eventsOf (pid : nat) (tr : list action) : list event :=
  match tr with
  | [] => []
  | Invoke _ :: tr' => TaskSettles pid :: eventsOf pid tr'
  | Sleep _ :: tr' => SleepElapses pid :: eventsOf pid tr'
  | Log _ :: tr' => eventsOf pid tr'
  end.

(** The capacity bound of the registry. *)
Definition withinCapacity (rt : Runtime) : Prop :=
  getActiveCount (store rt) <= maxConcurrent (store rt).

#[global] Instance withinCapacity_dec (rt : Runtime) : Decision (withinCapacity rt).
Proof. unfold withinCapacity. apply _. Defined.

(** What a run of the executor logs. *)
Fixpoint execLogs (tr : list action) : list logline :=
  match tr with
  | [] => []
  | Log l :: tr' => l :: execLogs tr'
  | _ :: tr' => execLogs tr'
  end.

(** A sequence of admission requests, first to last. *)
Record request : Type := mkRequest {
  rq_jobId : string;
  rq_task : task_body;
  rq_metadata : option string;
  rq_now : Z;
  rq_retryCount : Z
}.

Definition submit (rq : request) (rt : Runtime) : Runtime * bool :=
  addJob (rq_jobId rq) (rq_task rq) (rq_metadata rq) (rq_now rq) (rq_retryCount rq) rt.

Fixpoint submitAll (rqs : list request) (rt : Runtime) : Runtime * list bool :=
  match rqs with
  | [] => (rt, [])
  | rq :: rqs' =>
      let r := submit rq rt in
      let rest := submitAll rqs' r.1 in
      (rest.1, r.2 :: rest.2)
  end.

(** ** The interval/timeout pairs of the Zoom bot *)

Module ZoomBot.

(** *** [joinMeeting]: [waitAtLobbyPromise], lines 205-258 *)

(** What one run of the interval callback read in the footer: the three
    tests it makes on [joinedText] (lines 235, 238 and 243-245). *)
Record footer : Type := mkFooter {
  onlyWord : bool;        (* [joinedText === 'participants'] *)
  hasCount : bool;        (* the match of line 238: digits, then 'participants' *)
  count : option Z        (* the first run of digits (line 243), as a number *)
}.

(** How one run of the callback ends: an exception swallowed by the
    [catch] of line 252, or a footer read to the end. *)
Inductive reading : Type :=
| ReadingThrew
| Reading (f : footer).

(** Whether the callback reaches the [else] branch of lines 247-251. *)
Definition reportsReady (r : reading) : bool :=
  match r with
  | ReadingThrew => false
  | Reading f =>
      if onlyWord f then false
      else if negb (hasCount f) then false
      else match count f with
           | Some 0 => false          (* 'Waiting on host...' *)
           | _ => true
           end
  end.

(** The two timer handles, whether each is still armed, and the promise:
    [joined = None] while it is pending.  [started] counts the runs of
    the callback begun so far and [inFlight] those that have not ended
    (the callback is [async] and a run can outlive the next tick). *)
Record Lobby : Type := mkLobby {
  waitTimeout : bool;
  waitInterval : bool;
  joined : option bool;
  started : nat;
  inFlight : nat
}.

(** [resolveMe(b)]: a promise settles once, later calls change nothing. *)
Definition resolveMe (b : bool) (p : option bool) : option bool :=
  match p with
  | None => Some b
  | Some _ => p
  end.

Inductive lobby_event : Type :=
| TimeoutFires                 (* the [setTimeout] of line 208 *)
| IntervalFires                (* a tick of the [setInterval] of line 213 *)
| CallbackEnds (r : reading).  (* a run of the callback reaches its end *)

(** The state when the executor of [new Promise] returns: both armed. *)
Definition waitAtLobby : Lobby :=
  {| waitTimeout := true; waitInterval := true; joined := None;
     started := 0; inFlight := 0 |}.

Definition lobby_step (ev : lobby_event) (l : Lobby) : option Lobby :=
  match ev with
  | TimeoutFires =>
      if waitTimeout l
      then Some {| waitTimeout := false;            (* it has fired *)
                   waitInterval := false;           (* line 209 *)
                   joined := resolveMe false (joined l);  (* line 210 *)
                   started := started l; inFlight := inFlight l |}
      else None
  | IntervalFires =>
      if waitInterval l
      then Some {| waitTimeout := waitTimeout l; waitInterval := true;
                   joined := joined l;
                   started := S (started l); inFlight := S (inFlight l) |}
      else None
  | CallbackEnds r =>
      match inFlight l with
      | O => None
      | S k =>
          if reportsReady r
          then Some {| waitTimeout := false;        (* line 249 *)
                       waitInterval := false;       (* line 248 *)
                       joined := resolveMe true (joined l);  (* line 250 *)
                       started := started l; inFlight := k |}
          else Some {| waitTimeout := waitTimeout l; waitInterval := waitInterval l;
                       joined := joined l;
                       started := started l; inFlight := k |}
      end
  end.

Fixpoint lobby_run (evs : list lobby_event) (l : Lobby) : option Lobby :=
  match evs with
  | [] => Some l
  | ev :: evs' =>
      match lobby_step ev l with
      | Some l' => lobby_run evs' l'
      | None => None
      end
  end.

(** The first event of a schedule that settles the promise, and what it
    settles it with: the timeout, or a run of the callback that reports
    ready. *)
Fixpoint firstResolution (evs : list lobby_event) : option bool :=
  match evs with
  | [] => None
  | TimeoutFires :: _ => Some false
  | IntervalFires :: evs' => firstResolution evs'
  | CallbackEnds r :: evs' =>
      if reportsReady r then Some true else firstResolution evs'
  end.

(** Both timers armed while the promise is pending, none once it has
    settled. *)
Definition timersMatch (l : Lobby) : Prop :=
  match joined l with
  | None => waitTimeout l = true /\ waitInterval l = true
  | Some _ => waitTimeout l = false /\ waitInterval l = false
  end.

#[global] Instance timersMatch_dec (l : Lobby) : Decision (timersMatch l).
Proof. unfold timersMatch. destruct (joined l); apply _. Defined.

(** *** [dismissDeviceNotifications], lines 398-439 *)

(** What [await iframe.getByLabel('close').all()] gave one run of the
    callback: an exception (swallowed at line 429), or the buttons. *)
Inductive buttons : Type :=
| ButtonsThrew
| ButtonsFound (howMany : nat).

(** The handles, the [void] promise ([dismissed = true] once resolved),
    and the flag [foundAny] shared by the runs of the callback. *)
Record Notify : Type := mkNotify {
  notifyTimeout : bool;
  notifyInterval : bool;
  dismissed : bool;
  foundAny : bool;
  n_started : nat;
  n_inFlight : nat
}.

Inductive notify_event : Type :=
| NTimeoutFires                  (* the [setTimeout] of line 407 *)
| NIntervalFires                 (* a tick of the [setInterval] of line 412 *)
| NButtonsRead (b : buttons).    (* line 414 settles in one run *)

Definition notifyPromise : Notify :=
  {| notifyTimeout := true; notifyInterval := true; dismissed := false;
     foundAny := false; n_started := 0; n_inFlight := 0 |}.

Definition notify_step (ev : notify_event) (s : Notify) : option Notify :=
  match ev with
  | NTimeoutFires =>
      if notifyTimeout s
      then Some {| notifyTimeout := false; notifyInterval := false;  (* line 408 *)
                   dismissed := true;                                (* line 409 *)
                   foundAny := foundAny s;
                   n_started := n_started s; n_inFlight := n_inFlight s |}
      else None
  | NIntervalFires =>
      if notifyInterval s
      then Some {| notifyTimeout := notifyTimeout s; notifyInterval := true;
                   dismissed := dismissed s; foundAny := foundAny s;
                   n_started := S (n_started s); n_inFlight := S (n_inFlight s) |}
      else None
  | NButtonsRead b =>
      match n_inFlight s with
      | O => None
      | S k =>
          match b with
          | ButtonsFound (S _) =>                    (* line 415 *)
              Some {| notifyTimeout := notifyTimeout s; notifyInterval := notifyInterval s;
                      dismissed := dismissed s; foundAny := true;
                      n_started := n_started s; n_inFlight := k |}
          | ButtonsFound O =>
              if foundAny s                          (* line 423 *)
              then Some {| notifyTimeout := false; notifyInterval := false;
                           dismissed := true; foundAny := true;
                           n_started := n_started s; n_inFlight := k |}
              else Some {| notifyTimeout := notifyTimeout s; notifyInterval := notifyInterval s;
                           dismissed := dismissed s; foundAny := false;
                           n_started := n_started s; n_inFlight := k |}
          | ButtonsThrew =>
              Some {| notifyTimeout := notifyTimeout s; notifyInterval := notifyInterval s;
                      dismissed := dismissed s; foundAny := foundAny s;
                      n_started := n_started s; n_inFlight := k |}
          end
      end
  end.

Fixpoint notify_run (evs : list notify_event) (s : Notify) : option Notify :=
  match evs with
  | [] => Some s
  | ev :: evs' =>
      match notify_step ev s with
      | Some s' => notify_run evs' s'
      | None => None
      end
  end.

(** Both timers armed while the promise is pending, none once it has
    resolved. *)
Definition notifyTimersMatch (s : Notify) : Prop :=
  if dismissed s
  then notifyTimeout s = false /\ notifyInterval s = false
  else notifyTimeout s = true /\ notifyInterval s = true.

#[global] Instance notifyTimersMatch_dec (s : Notify) : Decision (notifyTimersMatch s).
Proof. unfold notifyTimersMatch. destruct (dismissed s); apply _. Defined.

(** Whether a schedule of [dismissDeviceNotifications] contains the
    timeout, and whether some run of its callback found close buttons. *)
Definition timedOut (evs : list notify_event) : bool :=
  existsb (fun ev => match ev with NTimeoutFires => true | _ => false end) evs.

Definition sawButtons (evs : list notify_event) : bool :=
  existsb (fun ev => match ev with
                     | NButtonsRead (ButtonsFound (S _)) => true
                     | _ => false
                     end) evs.

(** *** [waitForLandingPageNav], lines 305-346 *)

(** How one run of the interval callback ends, after its [await]s. *)
Inductive nav_check : Type :=
| StillOnLanding        (* [count() > 0], line 321 *)
| LinkGone              (* [count()] is 0, lines 323-326 *)
| NavTimeoutError       (* an exception named TimeoutError, lines 328-333 *)
| NavOtherError.        (* any other exception, lines 334-338 *)

(** The interval handle, the promise, the counter [attempt], and the
    runs of the callback begun and not yet ended. *)
Record Nav : Type := mkNav {
  interv : bool;
  navigated : option bool;
  attempt : nat;
  nav_started : nat;
  nav_inFlight : nat
}.

Definition maxAttempts : nat := 4.

Inductive nav_event : Type :=
| NavTick                      (* the [setInterval] of line 311 fires *)
| NavCheckEnds (c : nav_check).

Definition landingPageNav : Nav :=
  {| interv := true; navigated := None; attempt := 0;
     nav_started := 0; nav_inFlight := 0 |}.

Definition nav_step (ev : nav_event) (s : Nav) : option Nav :=
  match ev with
  | NavTick =>
      if interv s then
        if (maxAttempts <=? attempt s)%nat          (* lines 312-316 *)
        then Some {| interv := false; navigated := resolveMe false (navigated s);
                     attempt := attempt s;
                     nav_started := nav_started s; nav_inFlight := nav_inFlight s |}
        else Some {| interv := true; navigated := navigated s; attempt := attempt s;
                     nav_started := S (nav_started s);
                     nav_inFlight := S (nav_inFlight s) |}
      else None
  | NavCheckEnds c =>
      match nav_inFlight s with
      | O => None
      | S k =>
          match c with
          | StillOnLanding =>                       (* lines 321-322, 340 *)
              Some {| interv := interv s; navigated := navigated s;
                      attempt := S (attempt s);
                      nav_started := nav_started s; nav_inFlight := k |}
          | LinkGone =>                             (* lines 324-325, 340 *)
              Some {| interv := false; navigated := resolveMe true (navigated s);
                      attempt := S (attempt s);
                      nav_started := nav_started s; nav_inFlight := k |}
          | NavTimeoutError =>                      (* lines 330-332 *)
              Some {| interv := false; navigated := resolveMe true (navigated s);
                      attempt := attempt s;
                      nav_started := nav_started s; nav_inFlight := k |}
          | NavOtherError =>                        (* lines 334-338, 340 *)
              if (maxAttempts <=? attempt s)%nat
              then Some {| interv := false; navigated := resolveMe false (navigated s);
                           attempt := S (attempt s);
                           nav_started := nav_started s; nav_inFlight := k |}
              else Some {| interv := interv s; navigated := navigated s;
                           attempt := S (attempt s);
                           nav_started := nav_started s; nav_inFlight := k |}
          end
      end
  end.

Fixpoint nav_run (evs : list nav_event) (s : Nav) : option Nav :=
  match evs with
  | [] => Some s
  | ev :: evs' =>
      match nav_step ev s with
      | Some s' => nav_run evs' s'
      | None => None
      end
  end.

(** The runs of the callback that ended in a schedule, and whether one
    of them saw the link gone (by count or by TimeoutError). *)
Fixpoint navEnded (evs : list nav_event) : nat :=
  match evs with
  | [] => 0
  | NavCheckEnds _ :: evs' => S (navEnded evs')
  | NavTick :: evs' => navEnded evs'
  end.

Definition navGone (evs : list nav_event) : bool :=
  existsb (fun ev => match ev with
                     | NavCheckEnds LinkGone | NavCheckEnds NavTimeoutError => true
                     | _ => false
                     end) evs.

(** The interval is armed exactly while the promise is pending. *)
Definition navTimerMatches (s : Nav) : Prop :=
  match navigated s with
  | None => interv s = true
  | Some _ => interv s = false
  end.

(** *** [detectAppContainer], lines 352-392 *)

Inductive mode : Type := App | Iframe.

#[global] Instance mode_eq_dec : EqDecision mode.
Proof. solve_decision. Defined.

(** What the [try] block of lines 361-381 meets for one mode: a wait that
    throws, a wait that returns with nothing to use (a null [input] for
    ['app'], a null [contentFrame] for ['iframe']), or the container. *)
Inductive probe : Type :=
| ProbeThrew
| ProbeEmpty
| ProbeFound.

(** The [frame] of the result: [this.page] or the iframe's content
    frame; [None] is [null]. *)
Inductive frame : Type := ThePage | TheContentFrame.

Definition frameOf (m : mode) : frame :=
  match m with
  | App => ThePage
  | Iframe => TheContentFrame
  end.

(** Line 384: [mode === 'app' ? 'iframe' : 'app']. *)
Definition other (m : mode) : mode :=
  match m with
  | App => Iframe
  | Iframe => App
  end.

Record detection : Type := mkDetection {
  success : bool;
  container : option frame
}.

(** How many of the two modes are not in [tried]. *)
Definition untried (tried : list mode) : nat :=
  ((if bool_decide (App ∈ tried) then 0 else 1)
   + (if bool_decide (Iframe ∈ tried) then 0 else 1))%nat.

(** The inner [detect] of lines 355-389, with the set [tried] of the
    closure passed along (a list stands for the [Set]); next to the
    result, the modes probed, in order.  Whatever goes wrong with a mode,
    the other one is tried, unless it has been. *)
Equations? detect (page : mode -> probe) (m : mode) (tried : list mode)
  : list mode * detection by wf (untried tried) lt :=
detect page m tried with inspect (bool_decide (m ∈ tried)) := {
  | exist _ true _ => ([], mkDetection false None)
  | exist _ false Hnew with page m := {
    | ProbeFound => ([m], mkDetection true (Some (frameOf m)))
    | ProbeEmpty =>
        let r := detect page (other m) (m :: tried) in (m :: r.1, r.2)
    | ProbeThrew =>
        let r := detect page (other m) (m :: tried) in (m :: r.1, r.2) } }.
Proof.
  all: apply bool_decide_eq_false in Hnew; unfold untried.
  all: destruct m;
    repeat match goal with
           | |- context [bool_decide ?P] => destruct (bool_decide_reflect P)
           end;
    try lia; exfalso;
    repeat match goal with
           | H : _ ∈ _ :: _ |- _ => apply elem_of_cons in H as [H|H]; try discriminate
           | H : ¬ (_ ∈ _ :: _) |- _ => rewrite not_elem_of_cons in H; destruct H
           end; tauto.
Qed.

Definition detectAppContainer (page : mode -> probe) (startWith : mode)
  : list mode * detection :=
  detect page startWith [].

End ZoomBot.

(** ** Bookkeeping used by the properties of the event loop *)

(** An execution whose callbacks of lines 41-53 have not run yet. *)
Definition unfinished (x : Execution) : bool :=
  match ex_state x with
  | Finished => false
  | _ => true
  end.

(** The job ids of the executions in flight, in starting order. *)
Definition liveJobIds (rt : Runtime) : list string :=
  ex_jobId <$> filter (fun x => unfinished x = true) (execs rt).

(** A schedule that keeps the precondition of [addJob]: every id passed
    to it is, at that moment, not in the registry. *)
Fixpoint freshIds (evs : list event) (rt : Runtime) : bool :=
  match evs with
  | [] => true
  | ev :: evs' =>
      match ev with
      | CallAddJob jobId _ _ _ _ => bool_decide (jobs (store rt) !! jobId = None)
      | _ => true
      end
      && match step ev rt with
         | Some rt' => freshIds evs' rt'
         | None => true
         end
  end.

(** Whether an event is a call of [addJob]. *)
Definition isAddJob (ev : event) : bool :=
  match ev with
  | CallAddJob _ _ _ _ _ => true
  | _ => false
  end.

(** The sum of the waits of a run, in milliseconds. *)
Definition totalWait (tr : list action) : Z := foldr Z.add 0 (waits tr).

(** The numbers of the invocations of a run, in order. *)
Fixpoint invoked (tr : list action) : list nat :=
  match tr with
  | [] => []
  | Invoke n :: tr' => n :: invoked tr'
  | _ :: tr' => invoked tr'
  end.

(** How a promise settles when it follows one invocation of the task. *)
Definition settleAs (o : outcome) : settled :=
  match o with
  | Resolves => Fulfilled
  | Rejects e => Rejected e
  end.

(** Every entry of the registry is filed under its own [jobId] and has an
    execution in flight that carries this id. *)
Definition entriesLive (rt : Runtime) : Prop :=
  forall (id : string) (info : JobInfo),
    jobs (store rt) !! id = Some info ->
    jobId info = id
    /\ exists pid x, execs rt !! pid = Some x /\ ex_jobId x = id /\ unfinished x = true.

(** Every execution in flight is registered, and no two executions in
    flight carry the same id. *)
Definition liveRegistered (rt : Runtime) : Prop :=
  (forall pid x, execs rt !! pid = Some x -> unfinished x = true ->
     is_Some (jobs (store rt) !! ex_jobId x))
  /\ (forall p q x y, execs rt !! p = Some x -> execs rt !! q = Some y ->
        unfinished x = true -> unfinished y = true ->
        ex_jobId x = ex_jobId y -> p = q).

(** The registry counts exactly the executions in flight. *)
Definition accounted (rt : Runtime) : Prop :=
  liveRegistered rt
  /\ getActiveCount (store rt) = Z.of_nat (length (liveJobIds rt)).

(** ** The status routes of the HTTP application *)

(** The body of [GET /isbusy]: [data] is [isFull() ? 1 : 0]. *)
Record IsBusyBody : Type := mkIsBusyBody {
  ib_success : bool;
  ib_data : Z;
  ib_activeJobs : Z;
  ib_maxConcurrent : Z
}.

Definition getIsBusyRoute (s : JobStore) : Z * IsBusyBody :=
  (200, {| ib_success := true;
           ib_data := if isFull s then 1 else 0;
           ib_activeJobs := getActiveCount s;
           ib_maxConcurrent := getMaxConcurrent s |}).

(** [GET /metrics]: the values set on the gauges [isbusy] and
    [isavailable]. *)
Definition metricsGauges (s : JobStore) : Z * Z :=
  let jobStoreBusy := if isFull s then 1 else 0 in
  (jobStoreBusy, 1 - jobStoreBusy).

(** ** The [join] methods of the bots and the status they report *)

Module Bots.

(** Modelled from the spec: the type [BotStatus] of [src/types] (not
    under [src/]), as far as the two [join] methods use it: the four
    literals ['processing'], ['joined'], ['finished'] and ['failed']. *)
Inductive BotStatus : Type := StProcessing | StJoined | StFinished | StFailed.

#[global] Instance BotStatus_eq_dec : EqDecision BotStatus.
Proof. solve_decision. Defined.

(** What is thrown inside [join]: a [WaitingAtLobbyRetryError], or
    anything else. *)
Inductive thrown : Type :=
| LobbyRetryError
| OtherThrown (message : string).

(** How [joinMeeting] leaves: it calls [pushState('joined')] once the bot
    is in the meeting and [pushState('finished')] as its last statement
    (part_000 lines 292 and 298, MicrosoftTeamsBot.ts lines 213 and 232),
    and may throw before, or between the two. *)
Inductive joinMeeting_outcome : Type :=
| ThrowsBeforeJoined (e : thrown)
| ThrowsAfterJoined (e : thrown)
| Completes.

Definition pushed (jm : joinMeeting_outcome) : list BotStatus :=
  match jm with
  | ThrowsBeforeJoined _ => []
  | ThrowsAfterJoined _ => [StJoined]
  | Completes => [StJoined; StFinished]
  end.

(** [uploader.uploadRecordingToRemoteStorage()]. *)
Inductive upload_outcome : Type :=
| UploadReturns (ok : bool)
| UploadThrows (e : thrown).

(** The calls [join] makes to its collaborators, in order. *)
Inductive effect : Type :=
| PatchBotStatus (status : list BotStatus)
| Upload
| HandleLobbyError.

Inductive join_result : Type :=
| JoinResolves
| JoinRejects (e : thrown).

(** The [catch] block of both [join] methods (part_000 lines 55-66,
    MicrosoftTeamsBot.ts lines 60-81): push ['failed'] unless
    ['finished'] is in the list, report, hand a lobby error on, rethrow.
    [patchBotStatus] returns [false] on any failure and does not throw. *)
Definition catchBlock (state : list BotStatus) (e : thrown) : list effect * join_result :=
  let state' := if bool_decide (StFinished ∈ state) then state else state ++ [StFailed] in
  (PatchBotStatus state'
     :: match e with
        | LobbyRetryError => [HandleLobbyError]
        | OtherThrown _ => []
        end,
   JoinRejects e).

(** [ZoomBot.join], part_000 lines 40-67: report, then upload; the
    result of the upload is only logged. *)
Definition zoomJoin (jm : joinMeeting_outcome) (up : upload_outcome)
  : list effect * join_result :=
  let state := StProcessing :: pushed jm in
  match jm with
  | ThrowsBeforeJoined e | ThrowsAfterJoined e => catchBlock state e
  | Completes =>
      match up with
      | UploadReturns _ => ([PatchBotStatus state; Upload], JoinResolves)
      | UploadThrows e =>
          let c := catchBlock state e in
          (PatchBotStatus state :: Upload :: c.1, c.2)
      end
  end.

(** [_state.splice(_state.indexOf('finished'), 1, 'failed')]: the first
    ['finished'] becomes ['failed']. *)
Fixpoint spliceFinished (state : list BotStatus) : list BotStatus :=
  match state with
  | [] => []
  | StFinished :: rest => StFailed :: rest
  | st :: rest => st :: spliceFinished rest
  end.

(** [MicrosoftTeamsBot.join], lines 33-82: upload first; a finished
    recording whose upload returns a falsy result is turned into
    ['failed'], reported, and an [Error] is thrown, which the [catch]
    block of the same [try] then handles like any other. *)
Definition teamsJoin (jm : joinMeeting_outcome) (up : upload_outcome)
  : list effect * join_result :=
  let state := StProcessing :: pushed jm in
  match jm with
  | ThrowsBeforeJoined e | ThrowsAfterJoined e => catchBlock state e
  | Completes =>
      match up with
      | UploadThrows e =>
          let c := catchBlock state e in (Upload :: c.1, c.2)
      | UploadReturns ok =>
          if bool_decide (StFinished ∈ state) && negb ok
          then
            let state1 := spliceFinished state in
            let c := catchBlock state1 (OtherThrown "Recording upload failed") in
            (Upload :: PatchBotStatus state1 :: c.1, c.2)
          else ([Upload; PatchBotStatus state], JoinResolves)
      end
  end.

(** The status lists a run of [join] reported, in order. *)
Fixpoint reported (effs : list effect) : list (list BotStatus) :=
  match effs with
  | [] => []
  | PatchBotStatus st :: effs' => st :: reported effs'
  | _ :: effs' => reported effs'
  end.

End Bots.

(** ** Storage, status and notification services *)

Module Services.

(** JavaScript truthiness of an optional string setting: [undefined] and
    the empty string are falsy. *)
Definition truthy (v : option string) : bool :=
  match v with
  | Some EmptyString => false
  | Some _ => true
  | None => false
  end.

(** [missing.join(', ')]. *)
Fixpoint joinWith (sep : string) (l : list string) : string :=
  match l with
  | [] => EmptyString
  | [x] => x
  | x :: rest => x +:+ sep +:+ joinWith sep rest
  end.

(** *** [S3StorageProvider], part_001 *)

(** [config.s3CompatibleStorage], as far as the provider reads it. *)
Record S3Config : Type := mkS3Config {
  region : option string;
  bucket : option string;
  accessKeyId : option string;
  secretAccessKey : option string;
  endpoint : option string;
  forcePathStyle : bool
}.

(** The list [missing] of [validateConfig], lines 11-19. *)
Definition missingKeys (s3 : S3Config) : list string :=
  (if truthy (region s3) then [] else ["S3_REGION"])
  ++ (if truthy (bucket s3) then [] else ["S3_BUCKET_NAME"])
  ++ (if (truthy (accessKeyId s3) && negb (truthy (secretAccessKey s3)))
         || (negb (truthy (accessKeyId s3)) && truthy (secretAccessKey s3))
      then (if truthy (accessKeyId s3) then [] else ["S3_ACCESS_KEY_ID"])
           ++ (if truthy (secretAccessKey s3) then [] else ["S3_SECRET_ACCESS_KEY"])
      else []).

(** [validateConfig], lines 10-23: [None] when it returns, the message of
    the [Error] when it throws. *)
Definition validateConfig (s3 : S3Config) : option string :=
  match missingKeys s3 with
  | [] => None
  | missing =>
      Some ("S3 compatible storage configuration is not set or incomplete. Missing: "
            +:+ joinWith ", " missing)
  end.

(** The [S3ClientConfig] built by [uploadFile], lines 33-52. *)
Record ClientConfig : Type := mkClientConfig {
  cc_region : option string;
  cc_forcePathStyle : bool;
  cc_credentials : option (option string * option string);
  cc_endpoint : option string
}.

Inductive upload_result : Type :=
| ConfigErrorThrown       (* line 30 *)
| UploadFinished (ok : bool) (client : ClientConfig).

(** [uploadFile], lines 25-119; [done] says whether everything in the
    [try] block, up to [upload.done()], goes through. *)
Definition uploadFile (s3 : S3Config) (done : bool) : upload_result :=
  if negb (truthy (region s3)) || negb (truthy (bucket s3)) then ConfigErrorThrown
  else
    UploadFinished done
      {| cc_region := region s3;
         cc_forcePathStyle := forcePathStyle s3;
         cc_credentials :=
           if truthy (accessKeyId s3) && truthy (secretAccessKey s3)
           then Some (accessKeyId s3, secretAccessKey s3)
           else None;
         cc_endpoint := if truthy (endpoint s3) then endpoint s3 else None |}.

(** *** [botService.ts] *)

(** What the HTTP call of [patchBotStatus] or [addBotLog] does. *)
Inductive api_outcome : Type :=
| ApiResponds (success : bool)
| ApiThrows.

Inductive service_effect : Type :=
| InfoAuthBaseMissing      (* line 9 *)
| ApiPatch                 (* the [apiV2.patch] of lines 36 and 82 *)
| ErrorLogged.             (* lines 46 and 95 *)

(** [ensureAuthBaseConfigured], lines 6-16, with the module variable
    [warnedMissingAuthBase] passed in and out. *)
Definition ensureAuthBaseConfigured (authBaseUrlV2 : option string) (warned : bool)
  : bool * bool * list service_effect :=
  if negb (truthy authBaseUrlV2)
  then if negb warned then (false, true, [InfoAuthBaseMissing]) else (false, warned, [])
  else (true, warned, []).

(** [patchBotStatus] and [addBotLog], lines 18-104: same control flow.
    [createApiV2] throws only on a falsy base URL, which the guard has
    excluded. *)
Definition patchBotStatus (authBaseUrlV2 : option string) (warned : bool)
    (api : api_outcome) : bool * bool * list service_effect :=
  let g := ensureAuthBaseConfigured authBaseUrlV2 warned in
  if negb g.1.1 then (false, g.1.2, g.2)
  else
    match api with
    | ApiResponds success => (success, g.1.2, g.2 ++ [ApiPatch])
    | ApiThrows => (false, g.1.2, g.2 ++ [ApiPatch; ErrorLogged])
    end.

(** A sequence of such calls, the flag threaded through: the results and
    everything done. *)
Fixpoint patchAll (authBaseUrlV2 : option string) (warned : bool)
    (apis : list api_outcome) : list bool * list service_effect :=
  match apis with
  | [] => ([], [])
  | api :: apis' =>
      let r := patchBotStatus authBaseUrlV2 warned api in
      let rest := patchAll authBaseUrlV2 r.1.2 apis' in
      (r.1.1 :: rest.1, r.2 ++ rest.2)
  end.

(** What a call answers once the HTTP call has been made: the
    [success] of the response, [false] from the [catch] block. *)
Definition answerOf (api : api_outcome) : bool :=
  match api with
  | ApiResponds success => success
  | ApiThrows => false
  end.

(** The HTTP calls among what was done. *)
Fixpoint apiCalls (effs : list service_effect) : nat :=
  match effs with
  | [] => 0
  | ApiPatch :: effs' => S (apiCalls effs')
  | _ :: effs' => apiCalls effs'
  end.

(** *** [rpushToRedisList], lines 159-195 of the same file (the
    notification service that follows [botService] there) *)

Record RedisNotifyConfig : Type := mkRedisNotifyConfig {
  notifyRedisEnabled : bool;
  notifyRedisUri : option string;
  redisUri : option string;
  notifyRedisDb : option Z;       (* [None]: not of type number *)
  notifyRedisList : string
}.

(** Where the [try] block of lines 181-188 fails, if it does. *)
Inductive redis_failure : Type :=
| NoFailure
| CreateClientThrows
| ConnectThrows
| RPushThrows.

Inductive redis_effect : Type :=
| WarnNoUri
| WarnDbInvalid
| WarnDbZero
| CreateClient (uri : option string) (database : Z)
| Connect
| RPush (list_ : string)
| InfoPushed (database : Z)
| ErrorPush
| Quit.

Definition rpushToRedisList (cfg : RedisNotifyConfig) (fails : redis_failure)
  : list redis_effect :=
  if negb (notifyRedisEnabled cfg) then []
  else
    let uri := if truthy (notifyRedisUri cfg) then notifyRedisUri cfg else redisUri cfg in
    if negb (truthy uri) then [WarnNoUri]
    else
      match notifyRedisDb cfg with
      | None => [WarnDbInvalid]
      | Some db0 =>
          let warn := if db0 =? 0 then [WarnDbZero] else [] in
          let db := if db0 =? 0 then 1 else db0 in
          warn
          ++ match fails with
             | CreateClientThrows => [CreateClient uri db; ErrorPush]
             | ConnectThrows => [CreateClient uri db; Connect; ErrorPush; Quit]
             | RPushThrows =>
                 [CreateClient uri db; Connect; RPush (notifyRedisList cfg); ErrorPush; Quit]
             | NoFailure =>
                 [CreateClient uri db; Connect; RPush (notifyRedisList cfg);
                  InfoPushed db; Quit]
             end
      end.

End Services.

(** ** The audio silence monitor of the Teams bot *)

Module Silence.

(** How one run of the interval callback of MicrosoftTeamsBot.ts lines
    482-520 ends: [parec] gave a peak level ([None] when [parseInt] gives
    NaN, which [|| 0] turns into 0), or the command failed and the
    [catch] of line 517 only logged it. *)
Inductive audio_check : Type :=
| PeakRead (parsed : option Z)
| CheckFailed.

Definition peakLevel (parsed : option Z) : Z :=
  match parsed with
  | Some z => z
  | None => 0
  end.

Definition silenceThreshold : Z := 200.

(** The interval handle, the counter, the flag [meetingEnded] as far as
    the monitor sets it, and the runs of the callback not yet ended. *)
Record Monitor : Type := mkMonitor {
  checkInterval : bool;
  consecutiveSilentChecks : nat;
  meetingEnded : bool;
  checksInFlight : nat
}.

Inductive monitor_event : Type :=
| MonitorTick
| MonitorCheckEnds (c : audio_check).

Definition monitorStart : Monitor :=
  {| checkInterval := true; consecutiveSilentChecks := 0;
     meetingEnded := false; checksInFlight := 0 |}.

(** [checksNeeded] is [Math.ceil(inactivityLimitMs / 1000 / 5)], computed
    from the configuration; it is taken as given. *)
Definition monitor_step (checksNeeded : nat) (ev : monitor_event) (s : Monitor)
  : option Monitor :=
  match ev with
  | MonitorTick =>
      if checkInterval s
      then Some {| checkInterval := true;
                   consecutiveSilentChecks := consecutiveSilentChecks s;
                   meetingEnded := meetingEnded s;
                   checksInFlight := S (checksInFlight s) |}
      else None
  | MonitorCheckEnds c =>
      match checksInFlight s with
      | O => None
      | S k =>
          match c with
          | CheckFailed =>
              Some {| checkInterval := checkInterval s;
                      consecutiveSilentChecks := consecutiveSilentChecks s;
                      meetingEnded := meetingEnded s; checksInFlight := k |}
          | PeakRead parsed =>
              if peakLevel parsed <? silenceThreshold
              then
                let n := S (consecutiveSilentChecks s) in       (* line 495 *)
                if (checksNeeded <=? n)%nat                     (* line 498 *)
                then Some {| checkInterval := false;            (* line 508 *)
                             consecutiveSilentChecks := n;
                             meetingEnded := true;              (* line 509 *)
                             checksInFlight := k |}
                else Some {| checkInterval := checkInterval s;
                             consecutiveSilentChecks := n;
                             meetingEnded := meetingEnded s; checksInFlight := k |}
              else Some {| checkInterval := checkInterval s;
                           consecutiveSilentChecks := 0;        (* line 515 *)
                           meetingEnded := meetingEnded s; checksInFlight := k |}
          end
      end
  end.

Fixpoint monitor_run (checksNeeded : nat) (evs : list monitor_event) (s : Monitor)
  : option Monitor :=
  match evs with
  | [] => Some s
  | ev :: evs' =>
      match monitor_step checksNeeded ev s with
      | Some s' => monitor_run checksNeeded evs' s'
      | None => None
      end
  end.

(** The silent reads at the end of a schedule: going back from its last
    event, the reads below the threshold met before the first read at or
    above it; ticks and failed checks are passed over. *)
Fixpoint silentRun (backwards : list monitor_event) : nat :=
  match backwards with
  | [] => 0
  | MonitorCheckEnds (PeakRead parsed) :: rest =>
      if peakLevel parsed <? silenceThreshold then S (silentRun rest) else 0
  | _ :: rest => silentRun rest
  end.

Definition silentAtEnd (evs : list monitor_event) : nat := silentRun (rev evs).

End Silence.

(* ===================================================================== *)
(** * Part II: properties *)
(* ===================================================================== *)

(** ** The retry executor *)

(** The body of [executeTaskWithRetry] as the source has it, one
    conditional after the other. *)
Lemma executeTaskWithRetry_eq (task : task_body) (retryCount : Z) (n : nat) :
  executeTaskWithRetry task retryCount n =
  match task n with
  | Resolves => ([Invoke n], Fulfilled)
  | Rejects e =>
      if notRetryable e then ([Invoke n; Log (LogNotRetryable e)], Rejected e)
      else if triesConsumed e retryCount
      then ([Invoke n; Log (LogTriesConsumed e)], Rejected e)
      else if retryCount + 1 <? retryCap
      then
        let rest := executeTaskWithRetry task (retryCount + 1) (S n) in
        (Invoke n :: Sleep (sleepMs (retryCount + 1))
           :: map Log (warnRetry (retryCount + 1)) ++ rest.1,
         rest.2)
      else ([Invoke n; Sleep (sleepMs (retryCount + 1))], Rejected e)
  end.
Proof.
  funelim (executeTaskWithRetry task retryCount n);
    repeat match goal with
           | H : task _ = _ |- _ => rewrite H
           | H : notRetryable _ = _ |- _ => rewrite H
           | H : triesConsumed _ _ = _ |- _ => rewrite H
           | H : (_ <? _) = _ |- _ => rewrite H
           end; reflexivity.
Qed.

(** A first success ends the run at once. *)
Lemma success_run (task : task_body) (retryCount : Z) (n : nat) :
  task n = Resolves ->
  executeTaskWithRetry task retryCount n = ([Invoke n], Fulfilled).
Proof. intros H. rewrite executeTaskWithRetry_eq, H. reflexivity. Qed.

(** The whole run on a task that keeps failing with errors that are not
    [KnownError]s, from [retryCount = 0]. *)
Lemma unclassified_run (task : task_body) (names : nat -> string) :
  (forall n, task n = Rejects (OtherError (names n))) ->
  executeTaskWithRetry task 0 0 =
  ([Invoke 0; Sleep 30000; Log (LogRetryCount 1);
    Invoke 1; Sleep 60000; Log (LogRetryCount 2);
    Invoke 2; Sleep 90000],
   Rejected (OtherError (names 2%nat))).
Proof.
  intros Hfail.
  rewrite executeTaskWithRetry_eq, Hfail; cbn.
  rewrite executeTaskWithRetry_eq, Hfail; cbn.
  rewrite executeTaskWithRetry_eq, Hfail; cbn.
  reflexivity.
Qed.

Example unclassified_boom :
  executeTaskWithRetry (fun _ => Rejects (OtherError "boom")) 0 0 =
  ([Invoke 0; Sleep 30000; Log (LogRetryCount 1);
    Invoke 1; Sleep 60000; Log (LogRetryCount 2);
    Invoke 2; Sleep 90000],
   Rejected (OtherError "boom")).
Proof. vm_compute. reflexivity. Qed.

(** C5. A task whose every invocation fails with an error that carries no
    classification, run from [retryCount = 0], is invoked exactly 3 times;
    the wait between the 1st and the 2nd invocation is one backoff unit,
    the wait between the 2nd and the 3rd is two, and the run ends with the
    failure (of the 3rd invocation) propagated. *)
Theorem C5_unclassified_three_invocations (task : task_body) (names : nat -> string) :
  (forall n, task n = Rejects (OtherError (names n))) ->
  let r := executeTaskWithRetry task 0 0 in
  invocations r.1 = 3%nat
  /\ waitsAfter 0 r.1 = [1 * backoffUnitMs]
  /\ waitsAfter 1 r.1 = [2 * backoffUnitMs]
  /\ r.2 = Rejected (OtherError (names 2%nat)).
Proof.
  intros Hfail r. subst r.
  rewrite (unclassified_run task names Hfail).
  repeat split.
Qed.

Lemma C5_witness :
  let task : task_body := fun _ => Rejects (OtherError "boom") in
  let r := executeTaskWithRetry task 0 0 in
  invocations r.1 = 3%nat
  /\ waitsAfter 0 r.1 = [1 * backoffUnitMs]
  /\ waitsAfter 1 r.1 = [2 * backoffUnitMs]
  /\ r.2 = Rejected (OtherError "boom").
Proof.
  apply (C5_unclassified_three_invocations
           (fun _ => Rejects (OtherError "boom")) (fun _ => "boom")).
  intros n. reflexivity.
Defined.

(** C6, as the code has it.  On the path that gives up at the hardcoded
    cap, the [sleep] of line 78 comes before the test of line 79: after the
    3rd and last invocation the run still waits three backoff units, and
    only then rethrows.  No invocation follows that wait. *)
Theorem C6_backoff_after_final_attempt :
  let r := executeTaskWithRetry (fun _ => Rejects (OtherError "boom")) 0 0 in
  invocations r.1 = 3%nat
  /\ waitsAfter 2 r.1 = [3 * backoffUnitMs]
  /\ endsWithSleep r.1 = Some (3 * backoffUnitMs)
  /\ r.2 = Rejected (OtherError "boom").
Proof.
  cbv zeta. rewrite (unclassified_run _ (fun _ => "boom")) by reflexivity.
  repeat split.
Qed.

(** The sibling exit of line 72-75 gives up at once, with no wait. *)
Lemma declared_cap_no_final_wait :
  let r := executeTaskWithRetry (fun _ => Rejects (KnownError "lobby" true 3)) 0 0 in
  invocations r.1 = 3%nat /\ waitsAfter 2 r.1 = [] /\ endsWithSleep r.1 = None.
Proof. vm_compute. repeat split. Qed.

(** The whole run on a task that keeps failing with a retryable
    [KnownError] of budget [m], from [retryCount = 0], by the size of [m]. *)
Lemma retryable_run (task : task_body) (names : nat -> string) (m : Z) :
  (forall n, task n = Rejects (KnownError (names n) true m)) ->
  executeTaskWithRetry task 0 0 =
  if m <=? 1 then
    ([Invoke 0; Log (LogTriesConsumed (KnownError (names 0%nat) true m))],
     Rejected (KnownError (names 0%nat) true m))
  else if m <=? 2 then
    ([Invoke 0; Sleep 30000; Log (LogRetryCount 1);
      Invoke 1; Log (LogTriesConsumed (KnownError (names 1%nat) true m))],
     Rejected (KnownError (names 1%nat) true m))
  else if m <=? 3 then
    ([Invoke 0; Sleep 30000; Log (LogRetryCount 1);
      Invoke 1; Sleep 60000; Log (LogRetryCount 2);
      Invoke 2; Log (LogTriesConsumed (KnownError (names 2%nat) true m))],
     Rejected (KnownError (names 2%nat) true m))
  else
    ([Invoke 0; Sleep 30000; Log (LogRetryCount 1);
      Invoke 1; Sleep 60000; Log (LogRetryCount 2);
      Invoke 2; Sleep 90000],
     Rejected (KnownError (names 2%nat) true m)).
Proof.
  intros Hfail.
  assert (Hge : forall a, (a >=? m) = (m <=? a)).
  { intros a. rewrite Z.geb_leb. reflexivity. }
  rewrite executeTaskWithRetry_eq, Hfail; cbn. rewrite Hge.
  change (0 + 1) with 1.
  destruct (Z.leb_spec m 1) as [H1|H1]; [reflexivity|].
  change (1 <? retryCap) with true; cbv iota.
  rewrite executeTaskWithRetry_eq, Hfail; cbn. rewrite Hge.
  change (1 + 1) with 2.
  destruct (Z.leb_spec m 2) as [H2|H2]; [reflexivity|].
  change (2 <? retryCap) with true; cbv iota.
  rewrite executeTaskWithRetry_eq, Hfail; cbn. rewrite Hge.
  change (2 + 1) with 3.
  destruct (Z.leb_spec m 3) as [H3|H3]; reflexivity.
Qed.

Lemma invocations_logs (ls : list logline) (tr : list action) :
  invocations (map Log ls ++ tr) = invocations tr.
Proof. induction ls as [|l ls IH]; cbn; [reflexivity|exact IH]. Qed.

(** The number of invocations on such a task from any [retryCount], and
    the failure that comes out: by induction on the distance of
    [retryCount] to the cap, along the recursion of line 83. *)
Lemma retryable_invocations (task : task_body) (names : nat -> string) (m : Z) (k : nat) :
  (forall n, task n = Rejects (KnownError (names n) true m)) ->
  forall (retryCount : Z) (n : nat),
  (Z.to_nat (retryCap - retryCount) <= k)%nat ->
  let r := executeTaskWithRetry task retryCount n in
  Z.of_nat (invocations r.1) = Z.max 1 (Z.min m retryCap - retryCount)
  /\ r.2 = Rejected (KnownError (names (n + invocations r.1 - 1)%nat) true m).
Proof.
  intros Hfail. unfold retryCap.
  induction k as [|k IH]; intros retryCount n Hk;
    rewrite executeTaskWithRetry_eq, Hfail; cbn [notRetryable negb triesConsumed andb].
  all: destruct (Z.geb_spec (retryCount + 1) m) as [Hm|Hm].
  all: try (cbn; split; [lia|f_equal; f_equal; f_equal; lia]).
  all: unfold retryCap; destruct (Z.ltb_spec (retryCount + 1) 3) as [Hc|Hc].
  all: try lia.
  all: try (cbn; split; [lia|f_equal; f_equal; f_equal; lia]).
  cbv zeta. cbn [fst snd invocations]. rewrite invocations_logs.
  destruct (IH (retryCount + 1) (S n)) as [Hinv Hres]; [lia|].
  split; [lia|]. rewrite Hres. f_equal. f_equal. f_equal. lia.
Qed.

(** C7. A task whose every invocation fails with a retryable
    [KnownError] of declared budget [maxRetries = m] is invoked, from
    [retryCount], [max 1 (min m 3 - retryCount)] times: the run gives up
    at the first attempt count ([retryCount] plus the invocations made)
    that has reached [m] or the hardcoded cap of 3, whichever comes
    first, and propagates the failure.  For [m = 2] and a [retryCount]
    that is not negative (it is 0 unless [addJob] is told otherwise) that
    is at most 2 invocations, and exactly 2 from [retryCount = 0]. *)
Theorem C7_retryable_budget (task : task_body) (names : nat -> string) (m retryCount : Z) :
  (forall n, task n = Rejects (KnownError (names n) true m)) ->
  let r := executeTaskWithRetry task retryCount 0 in
  let k := invocations r.1 in
  Z.of_nat k = Z.max 1 (Z.min m retryCap - retryCount)
  /\ (m <= retryCount + Z.of_nat k \/ retryCap <= retryCount + Z.of_nat k)
  /\ (forall j : nat, (1 <= j < k)%nat ->
        retryCount + Z.of_nat j < m /\ retryCount + Z.of_nat j < retryCap)
  /\ (m = 2 -> 0 <= retryCount -> (k <= 2)%nat)
  /\ (m = 2 -> retryCount = 0 -> k = 2%nat)
  /\ r.2 = Rejected (KnownError (names (k - 1)%nat) true m).
Proof.
  intros Hfail r k. subst k r.
  destruct (retryable_invocations task names m (Z.to_nat (retryCap - retryCount)) Hfail
              retryCount 0%nat (le_n _)) as [Hinv Hres].
  cbv zeta in Hinv, Hres. unfold retryCap in *.
  split; [exact Hinv|].
  split; [lia|]. split; [intros j Hj; lia|].
  split; [intros -> Hrc; lia|]. split; [intros -> ->; lia|].
  rewrite Hres. reflexivity.
Qed.

Lemma C7_witness :
  let task : task_body := fun _ => Rejects (KnownError "lobby" true 2) in
  let r := executeTaskWithRetry task 0 0 in
  invocations r.1 = 2%nat
  /\ r.2 = Rejected (KnownError "lobby" true 2).
Proof.
  intros task r.
  destruct (C7_retryable_budget task (fun _ => "lobby") 2 0) as (_ & _ & _ & _ & H2 & Hr).
  - intros n. reflexivity.
  - split; [apply H2; reflexivity|exact Hr].
Defined.

Example retryable_two :
  invocations (executeTaskWithRetry (fun _ => Rejects (KnownError "lobby" true 2)) 0 0).1
  = 2%nat.
Proof. vm_compute. reflexivity. Qed.

(** C8. A task whose invocation fails with a [KnownError] marked
    [retryable = false] is invoked once: whatever [retryCount] the
    executor was entered with and whatever [maxRetries] the error
    declares, the run is that single invocation and the log of line 68,
    with no wait, and the failure is propagated. *)
Theorem C8_non_retryable_once (task : task_body) (name : string) (m retryCount : Z) (n : nat) :
  task n = Rejects (KnownError name false m) ->
  let r := executeTaskWithRetry task retryCount n in
  r.1 = [Invoke n; Log (LogNotRetryable (KnownError name false m))]
  /\ invocations r.1 = 1%nat
  /\ waits r.1 = []
  /\ r.2 = Rejected (KnownError name false m).
Proof.
  intros Hfail r. subst r.
  rewrite executeTaskWithRetry_eq, Hfail. cbn. repeat split.
Qed.

Lemma C8_witness :
  let task : task_body := fun _ => Rejects (KnownError "denied" false 5) in
  let r := executeTaskWithRetry task 0 0 in
  r.1 = [Invoke 0; Log (LogNotRetryable (KnownError "denied" false 5))]
  /\ invocations r.1 = 1%nat
  /\ waits r.1 = []
  /\ r.2 = Rejected (KnownError "denied" false 5).
Proof.
  apply (C8_non_retryable_once (fun _ => Rejects (KnownError "denied" false 5))
           "denied" 5 0 0).
  reflexivity.
Defined.

(** ** Admission *)

Lemma addJob_rejects jobId task metadata now retryCount (rt : Runtime) :
  getActiveCount (store rt) >= maxConcurrent (store rt)
  \/ shutdownRequested (store rt) = true ->
  addJob jobId task metadata now retryCount rt = (rt, false).
Proof.
  intros H. unfold addJob.
  destruct (Z.geb_spec (getActiveCount (store rt)) (maxConcurrent (store rt))) as [Hge|Hlt];
    [reflexivity|].
  destruct H as [H|H]; [lia|]. rewrite H. reflexivity.
Qed.

Lemma addJob_accepts jobId task metadata now retryCount (rt : Runtime) :
  getActiveCount (store rt) < maxConcurrent (store rt) ->
  shutdownRequested (store rt) = false ->
  addJob jobId task metadata now retryCount rt =
  ({| store := {| jobs := <[jobId := mkJobInfo jobId now metadata]> (jobs (store rt));
                  maxConcurrent := maxConcurrent (store rt);
                  shutdownRequested := shutdownRequested (store rt) |};
      execs := execs rt ++ [mkExecution jobId task (AwaitingTask retryCount 0)];
      waiters := waiters rt;
      logs := logs rt ++ [LogQueued jobId] |},
   true).
Proof.
  intros Hlt Hsd. unfold addJob.
  destruct (Z.geb_spec (getActiveCount (store rt)) (maxConcurrent (store rt))) as [Hge|_];
    [lia|].
  rewrite Hsd. reflexivity.
Qed.

(** An accepted call passed the guard of line 30. *)
Lemma addJob_accepted_inv jobId task metadata now retryCount (rt : Runtime) :
  (addJob jobId task metadata now retryCount rt).2 = true ->
  getActiveCount (store rt) < maxConcurrent (store rt)
  /\ shutdownRequested (store rt) = false.
Proof.
  unfold addJob.
  destruct (Z.geb_spec (getActiveCount (store rt)) (maxConcurrent (store rt))) as [Hge|Hlt];
    [discriminate|].
  destruct (shutdownRequested (store rt)); [discriminate|]. intros _. split; [lia|reflexivity].
Qed.

(** Admitting a fresh id below capacity: accepted, entered, one more job. *)
Lemma addJob_fresh jobId task metadata now retryCount (rt : Runtime) :
  getActiveCount (store rt) < maxConcurrent (store rt) ->
  shutdownRequested (store rt) = false ->
  jobs (store rt) !! jobId = None ->
  let r := addJob jobId task metadata now retryCount rt in
  r.2 = true
  /\ jobs (store r.1) !! jobId = Some (mkJobInfo jobId now metadata)
  /\ getActiveCount (store r.1) = getActiveCount (store rt) + 1.
Proof.
  intros Hlt Hsd Hnew r. subst r.
  rewrite addJob_accepts by assumption. cbn.
  split; [reflexivity|]. split.
  - apply lookup_insert_eq.
  - unfold getActiveCount. cbn. rewrite map_size_insert_None by assumption. lia.
Qed.

Lemma submitAll_fresh (rqs : list request) :
  forall rt : Runtime,
  shutdownRequested (store rt) = false ->
  getActiveCount (store rt) + Z.of_nat (length rqs) <= maxConcurrent (store rt) ->
  NoDup (rq_jobId <$> rqs) ->
  (forall rq, rq ∈ rqs -> jobs (store rt) !! rq_jobId rq = None) ->
  let r := submitAll rqs rt in
  r.2 = replicate (length rqs) true
  /\ getActiveCount (store r.1) = getActiveCount (store rt) + Z.of_nat (length rqs)
  /\ maxConcurrent (store r.1) = maxConcurrent (store rt)
  /\ shutdownRequested (store r.1) = false
  /\ (forall rq, rq ∈ rqs ->
        jobs (store r.1) !! rq_jobId rq
        = Some (mkJobInfo (rq_jobId rq) (rq_now rq) (rq_metadata rq)))
  /\ (forall id, id ∉ (rq_jobId <$> rqs) -> jobs (store r.1) !! id = jobs (store rt) !! id).
Proof.
  induction rqs as [|rq rqs IH]; intros rt Hsd Hcap Hnd Hnew; cbn.
  - repeat split; try lia; try assumption. intros rq H. inversion H.
  - cbn in Hcap. rewrite fmap_cons in Hnd. apply NoDup_cons in Hnd as [Hnotin Hnd].
    assert (Hlt : getActiveCount (store rt) < maxConcurrent (store rt)) by lia.
    assert (Hrq : jobs (store rt) !! rq_jobId rq = None) by (apply Hnew; left).
    unfold submit.
    destruct (addJob_fresh (rq_jobId rq) (rq_task rq) (rq_metadata rq) (rq_now rq)
                (rq_retryCount rq) rt Hlt Hsd Hrq) as (Hacc & Hin & Hcount).
    pose proof (addJob_accepts (rq_jobId rq) (rq_task rq) (rq_metadata rq) (rq_now rq)
                  (rq_retryCount rq) rt Hlt Hsd) as Heq.
    set (rt1 := (addJob (rq_jobId rq) (rq_task rq) (rq_metadata rq) (rq_now rq)
                   (rq_retryCount rq) rt).1) in *.
    assert (Hmax1 : maxConcurrent (store rt1) = maxConcurrent (store rt))
      by (subst rt1; rewrite Heq; reflexivity).
    assert (Hsd1 : shutdownRequested (store rt1) = false)
      by (subst rt1; rewrite Heq; exact Hsd).
    assert (Hother : forall id, id <> rq_jobId rq ->
              jobs (store rt1) !! id = jobs (store rt) !! id).
    { intros id Hne. subst rt1. rewrite Heq. cbn. apply lookup_insert_ne. congruence. }
    destruct (IH rt1) as (Hall & Hcnt & Hmax & Hsd' & Hlook & Hrest).
    + exact Hsd1.
    + rewrite Hmax1. lia.
    + exact Hnd.
    + intros rq' Hrq'. rewrite Hother.
      * apply Hnew. right. exact Hrq'.
      * intros Heq'. apply Hnotin. rewrite <- Heq'.
        apply list_elem_of_fmap. exists rq'. split; [reflexivity|exact Hrq'].
    + rewrite Hacc, Hall. repeat split.
      * rewrite Hcnt, Hcount. lia.
      * congruence.
      * exact Hsd'.
      * intros rq' Hrq'. apply elem_of_cons in Hrq' as [->|Hrq'].
        -- rewrite Hrest by exact Hnotin. exact Hin.
        -- apply Hlook. exact Hrq'.
      * intros id Hid. apply not_elem_of_cons in Hid as [Hne Hid].
        rewrite Hrest by exact Hid. apply Hother. exact Hne.
Qed.

(** C1. With [maxConcurrent = N] and no shutdown requested: an [addJob]
    with an id not yet registered, made in any state holding fewer than
    [N] jobs, is accepted and enters the job (first part); so [N]
    admissions of distinct ids into a fresh store are all accepted and
    leave [getActiveCount() = N]; one more [addJob] is then refused and
    leaves the whole state as it was: the registry, the detached
    executions (its task is not started) and the log. *)
Theorem C1_admission_up_to_capacity (N : nat) (rqs : list request) (extra : request) :
  length rqs = N ->
  NoDup (rq_jobId <$> rqs) ->
  let r := submitAll rqs (boot (Z.of_nat N)) in
  (forall (rt : Runtime) (rq : request),
      maxConcurrent (store rt) = Z.of_nat N ->
      shutdownRequested (store rt) = false ->
      getActiveCount (store rt) < Z.of_nat N ->
      jobs (store rt) !! rq_jobId rq = None ->
      (submit rq rt).2 = true
      /\ jobs (store (submit rq rt).1) !! rq_jobId rq
         = Some (mkJobInfo (rq_jobId rq) (rq_now rq) (rq_metadata rq))
      /\ getActiveCount (store (submit rq rt).1) = getActiveCount (store rt) + 1)
  /\ r.2 = replicate N true
  /\ getActiveCount (store r.1) = Z.of_nat N
  /\ (forall rq, rq ∈ rqs ->
        jobs (store r.1) !! rq_jobId rq
        = Some (mkJobInfo (rq_jobId rq) (rq_now rq) (rq_metadata rq)))
  /\ submit extra r.1 = (r.1, false).
Proof.
  intros Hlen Hnd r. split.
  { intros rt rq Hmax Hsd Hlt Hnew. unfold submit.
    apply addJob_fresh; [rewrite Hmax; exact Hlt | exact Hsd | exact Hnew]. }
  destruct (submitAll_fresh rqs (boot (Z.of_nat N))) as (Hall & Hcnt & Hmax & Hsd & Hlook & _).
  - reflexivity.
  - unfold getActiveCount. cbn. rewrite map_size_empty. lia.
  - exact Hnd.
  - intros rq _. cbn. apply lookup_empty.
  - fold r in Hall, Hcnt, Hmax, Hsd, Hlook.
    assert (Hfull : getActiveCount (store r.1) = Z.of_nat N).
    { rewrite Hcnt. unfold getActiveCount. cbn. rewrite map_size_empty. lia. }
    rewrite Hall, Hlen. repeat split; try assumption.
    unfold submit. apply addJob_rejects. left. rewrite Hmax, Hfull. cbn. lia.
Qed.

Lemma C1_witness :
  let rqs := [mkRequest "a" (fun _ => Resolves) None 10 0;
              mkRequest "b" (fun _ => Rejects (OtherError "boom")) None 20 0] in
  let extra := mkRequest "c" (fun _ => Resolves) None 30 0 in
  let r := submitAll rqs (boot 2) in
  r.2 = [true; true]
  /\ getActiveCount (store r.1) = 2
  /\ submit extra r.1 = (r.1, false).
Proof.
  intros rqs extra r.
  destruct (C1_admission_up_to_capacity 2 rqs extra) as (_ & Hall & Hcnt & _ & Hrej).
  - reflexivity.
  - apply (bool_decide_unpack _). vm_compute. reflexivity.
  - repeat split; assumption.
Defined.

(** ** The capacity invariant and the shutdown flag *)

(** What one atomic block can do to the store: nothing to
    [maxConcurrent]; the flag is only ever set; and the registry either
    shrinks or, in an accepted [addJob], gains the one entry, after the
    guard has passed. *)
Lemma step_store (ev : event) (rt rt' : Runtime) :
  step ev rt = Some rt' ->
  maxConcurrent (store rt') = maxConcurrent (store rt)
  /\ (shutdownRequested (store rt) = true -> shutdownRequested (store rt') = true)
  /\ (jobs (store rt') ⊆ jobs (store rt)
      \/ exists jobId task metadata now retryCount,
           ev = CallAddJob jobId task metadata now retryCount
           /\ getActiveCount (store rt) < maxConcurrent (store rt)
           /\ jobs (store rt') = <[jobId := mkJobInfo jobId now metadata]> (jobs (store rt))).
Proof.
  intros Hstep. destruct ev as [jobId task metadata now retryCount| | |pid|pid|pid|wid];
    cbn in Hstep.
  - destruct (addJob jobId task metadata now retryCount rt) as [rt1 acc] eqn:Hadd.
    cbn in Hstep. injection Hstep as ->.
    destruct acc.
    + destruct (addJob_accepted_inv jobId task metadata now retryCount rt) as [Hlt Hsd];
        [rewrite Hadd; reflexivity|].
      rewrite addJob_accepts in Hadd by assumption. injection Hadd as <-. cbn.
      split; [reflexivity|]. split; [tauto|].
      right. exists jobId, task, metadata, now, retryCount. auto.
    + unfold addJob in Hadd.
      destruct ((getActiveCount (store rt) >=? maxConcurrent (store rt))
                || shutdownRequested (store rt)); [|discriminate].
      injection Hadd as <-. split; [reflexivity|]. split; [tauto|]. left. reflexivity.
  - injection Hstep as <-. cbn. split; [reflexivity|]. split; [tauto|]. left. reflexivity.
  - injection Hstep as <-. unfold waitForCompletion.
    destruct (size (jobs (store rt)) =? 0)%nat; cbn;
      (split; [reflexivity|]; split; [tauto|]; left; reflexivity).
  - destruct (execs rt !! pid) as [x|]; [|discriminate].
    destruct (ex_state x); try discriminate. injection Hstep as <-. cbn.
    split; [reflexivity|]. split; [tauto|]. left. reflexivity.
  - destruct (execs rt !! pid) as [x|]; [|discriminate].
    destruct (ex_state x); try discriminate. injection Hstep as <-. cbn.
    split; [reflexivity|]. split; [tauto|]. left. reflexivity.
  - destruct (execs rt !! pid) as [x|]; [|discriminate].
    destruct (ex_state x); try discriminate. injection Hstep as <-. cbn.
    split; [reflexivity|]. split; [tauto|]. left. apply delete_subseteq.
  - destruct (waiters rt !! wid) as [[|ms]|]; try discriminate.
    injection Hstep as <-. cbn.
    split; [reflexivity|]. split; [tauto|]. left. reflexivity.
Qed.

Lemma step_withinCapacity (ev : event) (rt rt' : Runtime) :
  step ev rt = Some rt' -> withinCapacity rt -> withinCapacity rt'.
Proof.
  intros Hstep Hinv. unfold withinCapacity in *.
  destruct (step_store ev rt rt' Hstep) as (Hmax & _ & [Hsub|Hins]).
  - rewrite Hmax. apply map_subseteq_size in Hsub. unfold getActiveCount in *. lia.
  - destruct Hins as (jobId & task & metadata & now & retryCount & _ & Hlt & Hjobs).
    rewrite Hmax. unfold getActiveCount in *. rewrite Hjobs, map_size_insert.
    destruct (jobs (store rt) !! jobId); cbn; lia.
Qed.

Lemma run_app (evs1 evs2 : list event) (rt : Runtime) :
  run (evs1 ++ evs2) rt =
  match run evs1 rt with
  | Some rt1 => run evs2 rt1
  | None => None
  end.
Proof.
  revert rt. induction evs1 as [|ev evs1 IH]; intros rt; cbn; [reflexivity|].
  destruct (step ev rt); [apply IH|reflexivity].
Qed.

(** Induction over the schedules of the event loop. *)
Lemma run_ind_inv (P : Runtime -> Prop) :
  (forall ev rt rt', step ev rt = Some rt' -> P rt -> P rt') ->
  forall evs rt rt', run evs rt = Some rt' -> P rt -> P rt'.
Proof.
  intros Hstep. induction evs as [|ev evs IH]; intros rt rt' Hrun HP; cbn in Hrun.
  - injection Hrun as <-. exact HP.
  - destruct (step ev rt) as [rt1|] eqn:H1; [|discriminate].
    eapply IH; [exact Hrun|]. eapply Hstep; eauto.
Qed.

(** C2. In every state reachable from [new JobStore(N)], [N >= 0], the
    registry holds at most [maxConcurrent = N] jobs.  Every atomic block
    preserves the bound: an [addJob] inserts only when its guard found
    [size < maxConcurrent], check and insert being one block, and every
    other block leaves the registry a sub-map of what it was. *)
Theorem C2_registry_within_capacity (N : Z) (rt : Runtime) :
  0 <= N ->
  reachable N rt ->
  getActiveCount (store rt) <= getMaxConcurrent (store rt)
  /\ getMaxConcurrent (store rt) = N
  /\ (forall ev rt', step ev rt = Some rt' ->
        getActiveCount (store rt') <= getMaxConcurrent (store rt')
        /\ (jobs (store rt') ⊆ jobs (store rt)
            \/ exists jobId task metadata now retryCount,
                 ev = CallAddJob jobId task metadata now retryCount
                 /\ getActiveCount (store rt) < getMaxConcurrent (store rt)
                 /\ jobs (store rt')
                    = <[jobId := mkJobInfo jobId now metadata]> (jobs (store rt)))).
Proof.
  intros HN [evs Hrun].
  assert (Hinv : withinCapacity rt /\ maxConcurrent (store rt) = N).
  { eapply (run_ind_inv (fun rt => withinCapacity rt /\ maxConcurrent (store rt) = N));
      [|exact Hrun|].
    - intros ev s s' Hs [Hc Hm]. split.
      + eapply step_withinCapacity; eauto.
      + destruct (step_store ev s s' Hs) as (Hmax & _). congruence.
    - split; [|reflexivity]. unfold withinCapacity, getActiveCount. cbn.
      rewrite map_size_empty. cbn. lia. }
  destruct Hinv as [Hc Hm]. unfold getMaxConcurrent.
  split; [exact Hc|]. split; [exact Hm|].
  intros ev rt' Hstep. split.
  - eapply step_withinCapacity; eauto.
  - apply (step_store ev rt rt' Hstep).
Qed.

Lemma C2_witness :
  let rt := (addJob "a" (fun _ => Resolves) None 10 0 (boot 2)).1 in
  getActiveCount (store rt) <= getMaxConcurrent (store rt)
  /\ getMaxConcurrent (store rt) = 2.
Proof.
  intros rt.
  destruct (C2_registry_within_capacity 2 rt) as (Hc & Hm & _).
  - lia.
  - exists [CallAddJob "a" (fun _ => Resolves) None 10 0]. reflexivity.
  - split; assumption.
Defined.

Lemma run_keeps_shutdown (evs : list event) (rt rt' : Runtime) :
  run evs rt = Some rt' ->
  shutdownRequested (store rt) = true ->
  shutdownRequested (store rt') = true.
Proof.
  apply (run_ind_inv (fun rt => shutdownRequested (store rt) = true)).
  intros ev s s' Hs. apply (step_store ev s s' Hs).
Qed.

(** C3. No atomic block resets the flag: in every state that follows a
    call of [requestShutdown()], whatever ran in between,
    [isShutdownRequested()] is true, it is still true after any further
    block, and every [addJob] is refused and changes nothing, whatever
    the size of the registry. *)
Theorem C3_shutdown_is_final (rt0 : Runtime) (evs : list event) (rt : Runtime) :
  run evs (requestShutdown rt0) = Some rt ->
  isShutdownRequested (store rt) = true
  /\ (forall ev rt', step ev rt = Some rt' -> isShutdownRequested (store rt') = true)
  /\ (forall jobId task metadata now retryCount,
        addJob jobId task metadata now retryCount rt = (rt, false)).
Proof.
  intros Hrun. unfold isShutdownRequested.
  assert (Hsd : shutdownRequested (store rt) = true).
  { eapply run_keeps_shutdown; [exact Hrun|reflexivity]. }
  split; [exact Hsd|]. split.
  - intros ev rt' Hstep. apply (step_store ev rt rt' Hstep). exact Hsd.
  - intros. apply addJob_rejects. right. exact Hsd.
Qed.

Lemma C3_witness :
  let evs := [CallAddJob "z" (fun _ => Resolves) None 5 0; CallWaitForCompletion;
              CallRequestShutdown] in
  let rt := {| store := store (requestShutdown (boot 3)); execs := [];
               waiters := [WaitResolved]; logs := [] |} in
  run evs (requestShutdown (boot 3)) = Some rt
  /\ getActiveCount (store rt) = 0
  /\ isShutdownRequested (store rt) = true
  /\ addJob "a" (fun _ => Resolves) None 10 0 rt = (rt, false).
Proof.
  intros evs rt.
  assert (Hrun : run evs (requestShutdown (boot 3)) = Some rt)
    by (vm_compute; reflexivity).
  destruct (C3_shutdown_is_final (boot 3) evs rt Hrun) as (Hsd & _ & Hrej).
  split; [exact Hrun|]. split; [reflexivity|]. split; [exact Hsd|]. apply Hrej.
Defined.

(** ** Detached executions *)

Lemma eventsOf_logs (pid : nat) (ls : list logline) (tr : list action) :
  eventsOf pid (map Log ls ++ tr) = eventsOf pid tr.
Proof. induction ls as [|l ls IH]; cbn; [reflexivity|exact IH]. Qed.

Lemma execLogs_logs (ls : list logline) (tr : list action) :
  execLogs (map Log ls ++ tr) = ls ++ execLogs tr.
Proof. induction ls as [|l ls IH]; cbn; [reflexivity|rewrite IH; reflexivity]. Qed.

Lemma step_TaskSettles (pid : nat) (jid : string) (task : task_body)
    (retryCount : Z) (n : nat) (rt : Runtime) :
  execs rt !! pid = Some (mkExecution jid task (AwaitingTask retryCount n)) ->
  step (TaskSettles pid) rt =
  Some {| store := store rt;
          execs := <[pid := mkExecution jid task (onTaskSettled task retryCount n).1]> (execs rt);
          waiters := waiters rt;
          logs := logs rt ++ (onTaskSettled task retryCount n).2 |}.
Proof. intros Hpid. cbn. rewrite Hpid. reflexivity. Qed.

Lemma step_SleepElapses (pid : nat) (jid : string) (task : task_body)
    (retryCount : Z) (e : error) (n : nat) (rt : Runtime) :
  execs rt !! pid = Some (mkExecution jid task (Sleeping retryCount e n)) ->
  step (SleepElapses pid) rt =
  Some {| store := store rt;
          execs := <[pid := mkExecution jid task (onSleepElapsed retryCount e n).1]> (execs rt);
          waiters := waiters rt;
          logs := logs rt ++ (onSleepElapsed retryCount e n).2 |}.
Proof. intros Hpid. cbn. rewrite Hpid. reflexivity. Qed.

Lemma step_ChainRuns (pid : nat) (x : Execution) (r : settled) (rt : Runtime) :
  execs rt !! pid = Some x ->
  ex_state x = Settled r ->
  step (ChainRuns pid) rt = Some (runChain pid x r rt).
Proof. intros Hpid Hst. cbn. rewrite Hpid, Hst. reflexivity. Qed.

(** The two blocks of a failed attempt that is neither final nor out of
    its declared budget: into the sleep, and out of it. *)
Lemma attempt_fails (pid : nat) (jid : string) (task : task_body)
    (retryCount : Z) (e : error) (n : nat) (rt : Runtime) :
  execs rt !! pid = Some (mkExecution jid task (AwaitingTask retryCount n)) ->
  task n = Rejects e ->
  notRetryable e = false ->
  triesConsumed e retryCount = false ->
  run [TaskSettles pid; SleepElapses pid] rt =
  Some {| store := store rt;
          execs := <[pid := mkExecution jid task
                              (onSleepElapsed (retryCount + 1) e n).1]> (execs rt);
          waiters := waiters rt;
          logs := logs rt ++ (onSleepElapsed (retryCount + 1) e n).2 |}.
Proof.
  intros Hpid Htask Hnr Htc.
  assert (Hlen : (pid < length (execs rt))%nat) by (eapply lookup_lt_Some; eauto).
  cbn [run]. rewrite (step_TaskSettles pid jid task retryCount n rt Hpid).
  unfold onTaskSettled. rewrite Htask, Hnr, Htc. cbn [fst snd].
  erewrite step_SleepElapses.
  2:{ cbn [execs]. apply list_lookup_insert_eq. exact Hlen. }
  cbn [store execs waiters logs]. rewrite list_insert_insert_eq, app_nil_r. reflexivity.
Qed.

(** The event loop and the executor agree: the events of an execution,
    one per [await] of [executeTaskWithRetry], carry it from its first
    [await task()] to a settled promise, with the outcome and the logs
    that [executeTaskWithRetry] computes, and touch nothing else. *)
Lemma execution_settles (task : task_body) (jid : string) (pid : nat) (k : nat) :
  forall (retryCount : Z) (n : nat) (rt : Runtime),
  (Z.to_nat (retryCap - retryCount) <= k)%nat ->
  execs rt !! pid = Some (mkExecution jid task (AwaitingTask retryCount n)) ->
  let r := executeTaskWithRetry task retryCount n in
  run (eventsOf pid r.1) rt =
  Some {| store := store rt;
          execs := <[pid := mkExecution jid task (Settled r.2)]> (execs rt);
          waiters := waiters rt;
          logs := logs rt ++ execLogs r.1 |}.
Proof.
  induction k as [|k IH]; intros retryCount n rt Hk Hpid r; subst r;
    rewrite executeTaskWithRetry_eq.
  all: destruct (task n) as [|e] eqn:Htask.
  all: try (cbn; rewrite Hpid; cbn; unfold onTaskSettled, setExec; rewrite Htask; cbn;
            rewrite app_nil_r; reflexivity).
  all: destruct (notRetryable e) eqn:Hnr.
  all: try (cbn; rewrite Hpid; cbn; unfold onTaskSettled, setExec; rewrite Htask, Hnr; cbn;
            reflexivity).
  all: destruct (triesConsumed e retryCount) eqn:Htc.
  all: try (cbn; rewrite Hpid; cbn; unfold onTaskSettled, setExec; rewrite Htask, Hnr, Htc;
            cbn; reflexivity).
  all: pose proof (attempt_fails pid jid task retryCount e n rt Hpid Htask Hnr Htc) as H2.
  all: unfold onSleepElapsed in H2.
  all: destruct (Z.ltb_spec (retryCount + 1) retryCap) as [Hlt|Hge].
  all: try (unfold retryCap in *; lia).
  all: try (cbn [fst snd eventsOf execLogs]; rewrite H2; cbn [fst snd]; reflexivity).
  (* the recursive call of line 83 *)
  cbv zeta. cbn [fst snd eventsOf execLogs].
  rewrite eventsOf_logs, execLogs_logs.
  change (TaskSettles pid :: SleepElapses pid
            :: eventsOf pid (executeTaskWithRetry task (retryCount + 1) (S n)).1)
    with ([TaskSettles pid; SleepElapses pid]
            ++ eventsOf pid (executeTaskWithRetry task (retryCount + 1) (S n)).1).
  rewrite run_app, H2. cbn [fst snd].
  assert (Hlen : (pid < length (execs rt))%nat) by (eapply lookup_lt_Some; eauto).
  rewrite IH.
  - cbn [store execs waiters logs].
    rewrite list_insert_insert_eq, <- app_assoc. reflexivity.
  - unfold retryCap in *. lia.
  - cbn [execs]. apply list_lookup_insert_eq. exact Hlen.
Qed.

(** Whatever way the promise settled, its callbacks run and the
    [finally] deletes the entry. *)
Lemma settled_chain_deletes (rt : Runtime) (pid : nat) (x : Execution) (r : settled) :
  execs rt !! pid = Some x ->
  ex_state x = Settled r ->
  exists rt',
    step (ChainRuns pid) rt = Some rt'
    /\ jobs (store rt') !! ex_jobId x = None
    /\ execs rt' !! pid = Some (mkExecution (ex_jobId x) (ex_task x) Finished).
Proof.
  intros Hpid Hst. exists (runChain pid x r rt).
  split; [apply step_ChainRuns; assumption|]. cbn. split.
  - apply lookup_delete_eq.
  - apply list_lookup_insert_eq. eapply lookup_lt_Some; eauto.
Qed.

Lemma onTaskSettled_not_Finished (task : task_body) (retryCount : Z) (n : nat) :
  (onTaskSettled task retryCount n).1 <> Finished.
Proof.
  unfold onTaskSettled. destruct (task n) as [|e]; [discriminate|].
  destruct (notRetryable e); [discriminate|].
  destruct (triesConsumed e retryCount); discriminate.
Qed.

Lemma onSleepElapsed_not_Finished (retryCount : Z) (e : error) (n : nat) :
  (onSleepElapsed retryCount e n).1 <> Finished.
Proof. unfold onSleepElapsed. destruct (retryCount <? retryCap); discriminate. Qed.

(** The only block that finishes an execution is the one that runs its
    callbacks, and it leaves the job's id out of the registry. *)
Lemma finished_only_by_chain (ev : event) (rt rt' : Runtime) (pid : nat) (x x' : Execution) :
  step ev rt = Some rt' ->
  execs rt !! pid = Some x ->
  ex_state x <> Finished ->
  execs rt' !! pid = Some x' ->
  ex_state x' = Finished ->
  ev = ChainRuns pid /\ jobs (store rt') !! ex_jobId x = None.
Proof.
  intros Hstep Hx Hnf Hx' Hf.
  assert (Hlen : (pid < length (execs rt))%nat) by (eapply lookup_lt_Some; eauto).
  destruct ev as [jobId task metadata now retryCount| | |p|p|p|wid]; cbn in Hstep.
  - exfalso. unfold addJob in Hstep.
    destruct ((getActiveCount (store rt) >=? maxConcurrent (store rt))
              || shutdownRequested (store rt)); cbn in Hstep; injection Hstep as <-.
    + congruence.
    + cbn in Hx'. rewrite lookup_app_l in Hx' by exact Hlen. congruence.
  - exfalso. injection Hstep as <-. cbn in Hx'. congruence.
  - exfalso. injection Hstep as <-. unfold waitForCompletion in Hx'.
    destruct (size (jobs (store rt)) =? 0)%nat; cbn in Hx'; congruence.
  - exfalso. destruct (execs rt !! p) as [y|] eqn:Hy; [|discriminate].
    destruct (ex_state y) eqn:Hsy; try discriminate. injection Hstep as <-. cbn in Hx'.
    destruct (decide (p = pid)) as [->|Hne].
    + rewrite list_lookup_insert_eq in Hx' by exact Hlen. injection Hx' as <-.
      cbn in Hf. exact (onTaskSettled_not_Finished _ _ _ Hf).
    + rewrite list_lookup_insert_ne in Hx' by exact Hne. congruence.
  - exfalso. destruct (execs rt !! p) as [y|] eqn:Hy; [|discriminate].
    destruct (ex_state y) eqn:Hsy; try discriminate. injection Hstep as <-. cbn in Hx'.
    destruct (decide (p = pid)) as [->|Hne].
    + rewrite list_lookup_insert_eq in Hx' by exact Hlen. injection Hx' as <-.
      cbn in Hf. exact (onSleepElapsed_not_Finished _ _ _ Hf).
    + rewrite list_lookup_insert_ne in Hx' by exact Hne. congruence.
  - destruct (execs rt !! p) as [y|] eqn:Hy; [|discriminate].
    destruct (ex_state y) eqn:Hsy; try discriminate. injection Hstep as <-. cbn in Hx' |- *.
    destruct (decide (p = pid)) as [->|Hne].
    + split; [reflexivity|]. assert (y = x) as -> by congruence. apply lookup_delete_eq.
    + exfalso. rewrite list_lookup_insert_ne in Hx' by exact Hne. congruence.
  - exfalso. destruct (waiters rt !! wid) as [[|ms]|]; try discriminate.
    injection Hstep as <-. cbn in Hx'. congruence.
Qed.

(** C4. For every accepted job and every behaviour of its task: the
    detached execution runs to the outcome of [executeTaskWithRetry]
    (fulfilled, or rejected with a non-retryable error, with a budget
    used up, or with a fault the task did not classify), the job being
    registered meanwhile; the callbacks then run and delete the entry,
    whatever the outcome.  In any state, a settled execution deletes its
    entry when its callbacks run, and no execution finishes in any other
    way. *)
Theorem C4_entry_removed_on_every_exit (jobId : string) (task : task_body)
    (metadata : option string) (now retryCount : Z) (rt : Runtime) :
  (addJob jobId task metadata now retryCount rt).2 = true ->
  let rt1 := (addJob jobId task metadata now retryCount rt).1 in
  let pid := length (execs rt) in
  let r := executeTaskWithRetry task retryCount 0 in
  (exists rt2 rt3,
      run (eventsOf pid r.1) rt1 = Some rt2
      /\ execs rt2 !! pid = Some (mkExecution jobId task (Settled r.2))
      /\ jobs (store rt2) !! jobId = Some (mkJobInfo jobId now metadata)
      /\ step (ChainRuns pid) rt2 = Some rt3
      /\ jobs (store rt3) !! jobId = None
      /\ execs rt3 !! pid = Some (mkExecution jobId task Finished))
  /\ (forall (s : Runtime) (p : nat) (x : Execution) (o : settled),
        execs s !! p = Some x -> ex_state x = Settled o ->
        exists s', step (ChainRuns p) s = Some s'
                   /\ jobs (store s') !! ex_jobId x = None)
  /\ (forall (ev : event) (s s' : Runtime) (p : nat) (x x' : Execution),
        step ev s = Some s' ->
        execs s !! p = Some x -> ex_state x <> Finished ->
        execs s' !! p = Some x' -> ex_state x' = Finished ->
        ev = ChainRuns p /\ jobs (store s') !! ex_jobId x = None).
Proof.
  intros Hacc rt1 pid r.
  destruct (addJob_accepted_inv _ _ _ _ _ _ Hacc) as [Hlt Hsd].
  assert (Hrt1 : rt1 = (addJob jobId task metadata now retryCount rt).1) by reflexivity.
  rewrite addJob_accepts in Hrt1 by assumption. cbn [fst] in Hrt1.
  assert (Hpid : execs rt1 !! pid
                 = Some (mkExecution jobId task (AwaitingTask retryCount 0))).
  { rewrite Hrt1. cbn [execs]. apply list_lookup_middle. reflexivity. }
  assert (Hlen : (pid < length (execs rt1))%nat) by (eapply lookup_lt_Some; eauto).
  pose proof (execution_settles task jobId pid (Z.to_nat (retryCap - retryCount))
                retryCount 0%nat rt1 (le_n _) Hpid) as Hrun.
  cbv zeta in Hrun. fold r in Hrun.
  split; [|split].
  - eexists. 
    destruct (settled_chain_deletes
                {| store := store rt1;
                   execs := <[pid := mkExecution jobId task (Settled r.2)]> (execs rt1);
                   waiters := waiters rt1;
                   logs := logs rt1 ++ execLogs r.1 |}
                pid (mkExecution jobId task (Settled r.2)) r.2)
      as (rt3 & Hstep & Hdel & Hfin).
    { cbn [execs]. apply list_lookup_insert_eq. exact Hlen. }
    { reflexivity. }
    exists rt3. split; [exact Hrun|]. cbn [execs store].
    split; [apply list_lookup_insert_eq; exact Hlen|].
    split; [rewrite Hrt1; cbn; apply lookup_insert_eq|].
    split; [exact Hstep|]. split; [exact Hdel|exact Hfin].
  - intros s p x o Hx Ho.
    destruct (settled_chain_deletes s p x o Hx Ho) as (s' & Hs & Hd & _). eauto.
  - intros. eapply finished_only_by_chain; eauto.
Qed.

Lemma C4_witness :
  let task : task_body := fun _ => Rejects (OtherError "boom") in
  let rt1 := (addJob "a" task None 10 0 (boot 3)).1 in
  exists rt2 rt3,
    run (eventsOf 0 (executeTaskWithRetry task 0 0).1) rt1 = Some rt2
    /\ jobs (store rt2) !! "a" = Some (mkJobInfo "a" 10 None)
    /\ step (ChainRuns 0) rt2 = Some rt3
    /\ jobs (store rt3) !! "a" = None.
Proof.
  intros task rt1.
  destruct (C4_entry_removed_on_every_exit "a" task None 10 0 (boot 3))
    as [(rt2 & rt3 & H1 & _ & H3 & H4 & H5 & _) _].
  - vm_compute. reflexivity.
  - exists rt2, rt3. repeat split; assumption.
Defined.

(** Three slots: A, B and C are accepted, D is refused, A completes, D
    is accepted; the count goes 1, 2, 3, 3, 2, 3. *)
Example scenario_counts :
  let ok : task_body := fun _ => Resolves in
  let s1 := addJob "A" ok None 1 0 (boot 3) in
  let s2 := addJob "B" ok None 2 0 s1.1 in
  let s3 := addJob "C" ok None 3 0 s2.1 in
  let s4 := addJob "D" ok None 4 0 s3.1 in
  let s5 := run [TaskSettles 0; ChainRuns 0] s4.1 in
  let s6 := addJob "D" ok None 6 0 (default s4.1 s5) in
  [s1.2; s2.2; s3.2; s4.2; s6.2] = [true; true; true; false; true]
  /\ (fun s => getActiveCount (store s)) <$> [s1.1; s2.1; s3.1; s4.1; default s4.1 s5; s6.1]
     = [1; 2; 3; 3; 2; 3].
Proof. vm_compute. split; reflexivity. Qed.

(** ** Draining *)

Lemma waitForCompletion_empty (rt : Runtime) :
  getActiveCount (store rt) = 0 ->
  waitForCompletion rt =
  {| store := store rt; execs := execs rt;
     waiters := waiters rt ++ [WaitResolved]; logs := logs rt |}.
Proof.
  unfold getActiveCount, waitForCompletion. intros H.
  destruct (Nat.eqb_spec (size (jobs (store rt))) 0) as [_|Hne]; [reflexivity|lia].
Qed.

Lemma waitForCompletion_busy (rt : Runtime) :
  getActiveCount (store rt) <> 0 ->
  waitForCompletion rt =
  {| store := store rt; execs := execs rt;
     waiters := waiters rt ++ [WaitTimer 1000];
     logs := logs rt ++ [ConsoleWaiting (size (jobs (store rt)))] |}.
Proof.
  unfold getActiveCount, waitForCompletion, checkCompletion. intros H. cbn [store].
  destruct (Nat.eqb_spec (size (jobs (store rt))) 0) as [He|Hne]; [lia|].
  cbn [fst snd]. rewrite app_nil_r. reflexivity.
Qed.

(** A pending drain is resolved only by its own timer, and only on an
    empty registry. *)
Lemma waiter_resolved_only_empty (ev : event) (rt rt' : Runtime) (wid : nat) (ms : Z) :
  step ev rt = Some rt' ->
  waiters rt !! wid = Some (WaitTimer ms) ->
  waiters rt' !! wid = Some WaitResolved ->
  ev = DrainTimer wid
  /\ getActiveCount (store rt) = 0
  /\ getActiveCount (store rt') = 0.
Proof.
  intros Hstep Hw Hw'.
  assert (Hlen : (wid < length (waiters rt))%nat) by (eapply lookup_lt_Some; eauto).
  destruct ev as [jobId task metadata now retryCount| | |p|p|p|w]; cbn in Hstep.
  - exfalso. unfold addJob in Hstep.
    destruct ((getActiveCount (store rt) >=? maxConcurrent (store rt))
              || shutdownRequested (store rt)); cbn in Hstep; injection Hstep as <-;
      cbn in Hw'; congruence.
  - exfalso. injection Hstep as <-. cbn in Hw'. congruence.
  - exfalso. injection Hstep as <-. unfold waitForCompletion in Hw'.
    destruct (size (jobs (store rt)) =? 0)%nat; cbn in Hw';
      rewrite lookup_app_l in Hw' by exact Hlen; congruence.
  - exfalso. destruct (execs rt !! p) as [y|]; [|discriminate].
    destruct (ex_state y); try discriminate. injection Hstep as <-. cbn in Hw'. congruence.
  - exfalso. destruct (execs rt !! p) as [y|]; [|discriminate].
    destruct (ex_state y); try discriminate. injection Hstep as <-. cbn in Hw'. congruence.
  - exfalso. destruct (execs rt !! p) as [y|]; [|discriminate].
    destruct (ex_state y); try discriminate. injection Hstep as <-. cbn in Hw'. congruence.
  - destruct (waiters rt !! w) as [[|ms']|] eqn:Hww; try discriminate.
    injection Hstep as <-. cbn in Hw' |- *.
    destruct (decide (w = wid)) as [->|Hne].
    + rewrite list_lookup_insert_eq in Hw' by exact Hlen.
      unfold checkCompletion in Hw'. unfold getActiveCount.
      destruct (Nat.eqb_spec (size (jobs (store rt))) 0) as [He|Hn0].
      * rewrite He. auto.
      * cbn in Hw'. discriminate.
    + exfalso. rewrite list_lookup_insert_ne in Hw' by exact Hne. congruence.
Qed.

(** C10. Called on an empty registry, [waitForCompletion()] hands back a
    resolved promise and arms no timer.  Called on a registry that holds
    jobs, its promise is pending on a timer of 1000 ms; each time the
    timer fires the promise resolves if the registry is empty and
    otherwise waits on a new timer of 1000 ms; and no block of the event
    loop resolves a pending drain while a job is registered. *)
Theorem C10_waitForCompletion (rt : Runtime) :
  (getActiveCount (store rt) = 0 ->
     waitForCompletion rt =
     {| store := store rt; execs := execs rt;
        waiters := waiters rt ++ [WaitResolved]; logs := logs rt |})
  /\ (getActiveCount (store rt) <> 0 ->
        store (waitForCompletion rt) = store rt
        /\ waiters (waitForCompletion rt) = waiters rt ++ [WaitTimer 1000])
  /\ (forall wid ms,
        waiters rt !! wid = Some (WaitTimer ms) ->
        exists rt',
          step (DrainTimer wid) rt = Some rt'
          /\ store rt' = store rt
          /\ waiters rt' !! wid
             = Some (if getActiveCount (store rt) =? 0 then WaitResolved
                     else WaitTimer 1000))
  /\ (forall ev rt' wid ms,
        step ev rt = Some rt' ->
        waiters rt !! wid = Some (WaitTimer ms) ->
        waiters rt' !! wid = Some WaitResolved ->
        ev = DrainTimer wid
        /\ getActiveCount (store rt) = 0
        /\ getActiveCount (store rt') = 0).
Proof.
  split; [apply waitForCompletion_empty|].
  split; [intros H; rewrite waitForCompletion_busy by exact H; split; reflexivity|].
  split.
  - intros wid ms Hw. eexists. cbn. rewrite Hw. split; [reflexivity|]. cbn.
    split; [reflexivity|].
    rewrite list_lookup_insert_eq by (eapply lookup_lt_Some; eauto).
    unfold checkCompletion, getActiveCount.
    destruct (Nat.eqb_spec (size (jobs (store rt))) 0) as [He|Hne].
    + rewrite He. reflexivity.
    + destruct (Z.eqb_spec (Z.of_nat (size (jobs (store rt)))) 0); [lia|reflexivity].
  - intros ev rt' wid ms. apply waiter_resolved_only_empty.
Qed.

(** A drain that starts while a job runs: pending on a 1000 ms timer, still
    pending after a tick with the job registered, resolved by the first
    tick after the job is gone. *)
Example drain_after_job :
  let evs := [CallAddJob "a" (fun _ => Resolves) None 10 0;
              CallWaitForCompletion; DrainTimer 0; TaskSettles 0; DrainTimer 0] in
  (waiters <$> run evs (boot 3) = Some [WaitTimer 1000])
  /\ (waiters <$> run (evs ++ [ChainRuns 0; DrainTimer 0]) (boot 3) = Some [WaitResolved]).
Proof. vm_compute. split; reflexivity. Qed.

Lemma C10_witness :
  let busy := (addJob "a" (fun _ => Resolves) None 10 0 (boot 3)).1 in
  waitForCompletion (boot 3)
  = {| store := store (boot 3); execs := []; waiters := [WaitResolved]; logs := [] |}
  /\ waiters (waitForCompletion busy) = [WaitTimer 1000].
Proof.
  intros busy. split.
  - apply (C10_waitForCompletion (boot 3)). reflexivity.
  - apply (C10_waitForCompletion busy). vm_compute. discriminate.
Defined.

(** ** The bounded waits of the Zoom bot *)

Import ZoomBot.

Ltac lobby_cases ev l H :=
  destruct l as [wt wi j st fl]; destruct ev as [| |r]; cbn in H;
  [ destruct wt; [|discriminate]
  | destruct wi; [|discriminate]
  | destruct fl as [|fl]; [discriminate|]; destruct (reportsReady r) eqn:?Hready ];
  injection H as <-.

Lemma lobby_step_timersMatch (ev : lobby_event) (l l' : Lobby) :
  lobby_step ev l = Some l' -> timersMatch l -> timersMatch l'.
Proof.
  intros H Hinv. unfold timersMatch in *. lobby_cases ev l H; cbn in *.
  - destruct j; cbn; auto.
  - destruct j; cbn; destruct Hinv; try discriminate; auto.
  - destruct j; cbn; auto.
  - exact Hinv.
Qed.

(** A settled promise stays as it is, and no new run of the callback
    starts. *)
Lemma lobby_step_settled (ev : lobby_event) (l l' : Lobby) (b : bool) :
  lobby_step ev l = Some l' ->
  timersMatch l ->
  joined l = Some b ->
  joined l' = Some b /\ started l' = started l.
Proof.
  intros H Hinv Hj. unfold timersMatch in Hinv. rewrite Hj in Hinv.
  destruct Hinv as [Ht Hi]. lobby_cases ev l H; cbn in *; subst; try discriminate; auto.
Qed.

Lemma lobby_run_settled (evs : list lobby_event) :
  forall (l l' : Lobby) (b : bool),
  lobby_run evs l = Some l' ->
  timersMatch l ->
  joined l = Some b ->
  joined l' = Some b /\ started l' = started l /\ timersMatch l'.
Proof.
  induction evs as [|ev evs IH]; intros l l' b Hrun Hinv Hj; cbn in Hrun.
  - injection Hrun as <-. auto.
  - destruct (lobby_step ev l) as [l1|] eqn:H1; [|discriminate].
    destruct (lobby_step_settled ev l l1 b H1 Hinv Hj) as [Hj1 Hs1].
    destruct (IH l1 l' b Hrun (lobby_step_timersMatch ev l l1 H1 Hinv) Hj1) as (? & ? & ?).
    repeat split; try assumption. congruence.
Qed.

Lemma lobby_run_firstResolution (evs : list lobby_event) :
  forall (l l' : Lobby),
  lobby_run evs l = Some l' ->
  timersMatch l ->
  joined l = None ->
  joined l' = firstResolution evs /\ timersMatch l'.
Proof.
  induction evs as [|ev evs IH]; intros l l' Hrun Hinv Hj; cbn in Hrun.
  - injection Hrun as <-. auto.
  - destruct (lobby_step ev l) as [l1|] eqn:H1; [|discriminate].
    pose proof (lobby_step_timersMatch ev l l1 H1 Hinv) as Hinv1.
    lobby_cases ev l H1; cbn in Hj; subst j; cbn [firstResolution].
    + destruct (lobby_run_settled evs _ l' false Hrun Hinv1 eq_refl) as (? & _ & ?). auto.
    + apply (IH _ l' Hrun Hinv1 eq_refl).
    + rewrite Hready.
      destruct (lobby_run_settled evs _ l' true Hrun Hinv1 eq_refl) as (? & _ & ?). auto.
    + rewrite Hready. apply (IH _ l' Hrun Hinv1 eq_refl).
Qed.

Ltac notify_cases ev s H :=
  destruct s as [nt ni d fa st fl]; destruct ev as [| |b]; cbn in H;
  [ destruct nt; [|discriminate]
  | destruct ni; [|discriminate]
  | destruct fl as [|fl]; [discriminate|];
    destruct b as [|[|k]]; [ | destruct fa | ] ];
  injection H as <-.

Lemma notify_step_timersMatch (ev : notify_event) (s s' : Notify) :
  notify_step ev s = Some s' -> notifyTimersMatch s -> notifyTimersMatch s'.
Proof.
  intros H Hinv. unfold notifyTimersMatch in *.
  notify_cases ev s H; cbn in *; auto.
Qed.

Lemma notify_step_dismissed (ev : notify_event) (s s' : Notify) :
  notify_step ev s = Some s' ->
  notifyTimersMatch s ->
  dismissed s = true ->
  dismissed s' = true /\ n_started s' = n_started s.
Proof.
  intros H Hinv Hd. unfold notifyTimersMatch in Hinv. rewrite Hd in Hinv.
  destruct Hinv as [Ht Hi]. notify_cases ev s H; cbn in *; subst; try discriminate; auto.
Qed.

Lemma notify_run_timersMatch (evs : list notify_event) :
  forall s s' : Notify,
  notify_run evs s = Some s' -> notifyTimersMatch s -> notifyTimersMatch s'.
Proof.
  induction evs as [|ev evs IH]; intros s s' Hrun Hinv; cbn in Hrun.
  - injection Hrun as <-. exact Hinv.
  - destruct (notify_step ev s) as [s1|] eqn:H1; [|discriminate].
    eapply IH; [exact Hrun|]. eapply notify_step_timersMatch; eauto.
Qed.

Lemma notify_run_dismissed (evs : list notify_event) :
  forall s s' : Notify,
  notify_run evs s = Some s' ->
  notifyTimersMatch s ->
  dismissed s = true ->
  dismissed s' = true /\ n_started s' = n_started s.
Proof.
  induction evs as [|ev evs IH]; intros s s' Hrun Hinv Hd; cbn in Hrun.
  - injection Hrun as <-. auto.
  - destruct (notify_step ev s) as [s1|] eqn:H1; [|discriminate].
    destruct (notify_step_dismissed ev s s1 H1 Hinv Hd) as [Hd1 Hs1].
    destruct (IH s1 s' Hrun (notify_step_timersMatch ev s s1 H1 Hinv) Hd1) as [? ?].
    split; [assumption|congruence].
Qed.

(** The same discipline in [dismissDeviceNotifications]: once the promise
    has resolved neither timer is armed and no run of the callback
    starts. *)
Lemma notify_no_dangling_timers (evs : list notify_event) (s : Notify) :
  notify_run evs notifyPromise = Some s ->
  notifyTimersMatch s
  /\ (dismissed s = true ->
        notify_step NTimeoutFires s = None
        /\ notify_step NIntervalFires s = None
        /\ forall evs' s', notify_run evs' s = Some s' ->
             dismissed s' = true /\ n_started s' = n_started s).
Proof.
  intros Hrun.
  assert (Hinv : notifyTimersMatch s).
  { eapply notify_run_timersMatch; [exact Hrun|]. cbv. auto. }
  split; [exact Hinv|]. intros Hd.
  pose proof Hinv as Hinv'. unfold notifyTimersMatch in Hinv'. rewrite Hd in Hinv'.
  destruct Hinv' as [Ht Hi]. cbn. rewrite Ht, Hi.
  split; [reflexivity|]. split; [reflexivity|].
  intros evs' s' Hrun'. eapply notify_run_dismissed; eauto.
Qed.

(** C9. Along any schedule of [waitAtLobbyPromise], the promise is
    settled by the first event that is the timeout or a run of the
    callback that reports ready, with [false] for the timeout and [true]
    for the ready run.  While it is pending both timers are armed: the
    timeout, when it fires, resolves it with [false], a run that reports
    ready resolves it with [true], and either disarms both timers; a run
    that does not report ready (or throws) leaves it pending.  Once it is
    settled neither timer is armed, neither can fire, the value does not
    change and no further run of the callback starts. *)
Theorem C9_bounded_wait (evs : list lobby_event) (l : Lobby) :
  lobby_run evs waitAtLobby = Some l ->
  joined l = firstResolution evs
  /\ (joined l = None ->
        (exists l', lobby_step TimeoutFires l = Some l'
                    /\ joined l' = Some false
                    /\ waitTimeout l' = false /\ waitInterval l' = false)
        /\ (forall r l', lobby_step (CallbackEnds r) l = Some l' ->
              if reportsReady r
              then joined l' = Some true
                   /\ waitTimeout l' = false /\ waitInterval l' = false
              else joined l' = None
                   /\ waitTimeout l' = true /\ waitInterval l' = true))
  /\ (forall b, joined l = Some b ->
        waitTimeout l = false /\ waitInterval l = false
        /\ lobby_step TimeoutFires l = None
        /\ lobby_step IntervalFires l = None
        /\ (forall evs' l', lobby_run evs' l = Some l' ->
              joined l' = Some b /\ started l' = started l
              /\ waitTimeout l' = false /\ waitInterval l' = false)).
Proof.
  intros Hrun.
  assert (H0 : timersMatch waitAtLobby) by (cbv; auto).
  destruct (lobby_run_firstResolution evs waitAtLobby l Hrun H0 eq_refl) as [Hj Hinv].
  split; [exact Hj|]. split.
  - intros Hnone. pose proof Hinv as Hinv'. unfold timersMatch in Hinv'.
    rewrite Hnone in Hinv'. destruct Hinv' as [Ht Hi]. split.
    + eexists. cbn. rewrite Ht. split; [reflexivity|]. cbn. rewrite Hnone. auto.
    + intros r l' Hstep. cbn in Hstep.
      destruct (inFlight l) as [|k]; [discriminate|].
      destruct (reportsReady r); injection Hstep as <-; cbn; rewrite ?Hnone; auto.
  - intros b Hb. pose proof Hinv as Hinv'. unfold timersMatch in Hinv'.
    rewrite Hb in Hinv'. destruct Hinv' as [Ht Hi].
    split; [exact Ht|]. split; [exact Hi|]. cbn. rewrite Ht, Hi.
    split; [reflexivity|]. split; [reflexivity|].
    intros evs' l' Hrun'.
    destruct (lobby_run_settled evs' l l' b Hrun' Hinv Hb) as (Hj' & Hs' & Hinv2).
    unfold timersMatch in Hinv2. rewrite Hj' in Hinv2. destruct Hinv2. auto.
Qed.

(** The lobby wait of the spec's example: the third run reports ready
    before the timeout; and a wait that is never let in ends at the
    timeout. *)
Example lobby_third_check_ready :
  let waiting := Reading (mkFooter false true (Some 0)) in
  let letIn := Reading (mkFooter false true (Some 2)) in
  joined <$> lobby_run [IntervalFires; CallbackEnds waiting;
                        IntervalFires; CallbackEnds ReadingThrew;
                        IntervalFires; CallbackEnds letIn] waitAtLobby
  = Some (Some true)
  /\ joined <$> lobby_run [IntervalFires; CallbackEnds waiting;
                           IntervalFires; TimeoutFires; CallbackEnds letIn] waitAtLobby
     = Some (Some false)
  /\ lobby_run [IntervalFires; CallbackEnds letIn; IntervalFires] waitAtLobby = None
  /\ lobby_run [TimeoutFires; IntervalFires] waitAtLobby = None.
Proof. vm_compute. repeat split. Qed.

Lemma C9_witness :
  let letIn := Reading (mkFooter false true (Some 2)) in
  let evs := [IntervalFires; CallbackEnds ReadingThrew; IntervalFires; CallbackEnds letIn] in
  let l := {| waitTimeout := false; waitInterval := false; joined := Some true;
              started := 2; inFlight := 0 |} in
  lobby_run evs waitAtLobby = Some l
  /\ joined l = firstResolution evs
  /\ lobby_step TimeoutFires l = None
  /\ lobby_step IntervalFires l = None.
Proof.
  intros letIn evs l.
  assert (Hrun : lobby_run evs waitAtLobby = Some l) by reflexivity.
  destruct (C9_bounded_wait evs l Hrun) as (Hj & _ & Hs).
  destruct (Hs true eq_refl) as (_ & _ & Ht & Hi & _).
  repeat split; assumption.
Defined.

(* ===================================================================== *)
(** * Part III: further properties of the code *)
(* ===================================================================== *)

(** ** The retry executor on an arbitrary task *)

Lemma invoked_logs (ls : list logline) (tr : list action) :
  invoked (map Log ls ++ tr) = invoked tr.
Proof. induction ls as [|l ls IH]; cbn; [reflexivity|exact IH]. Qed.

Lemma waits_logs (ls : list logline) (tr : list action) :
  waits (map Log ls ++ tr) = waits tr.
Proof. induction ls as [|l ls IH]; cbn; [reflexivity|exact IH]. Qed.

(** The shape of every run, by induction along the recursion of line 83:
    how many invocations, which ones, what the promise settles to, and
    what each wait is. *)
Lemma retry_shape (task : task_body) (k : nat) :
  forall (retryCount : Z) (n : nat),
  (Z.to_nat (retryCap - retryCount) <= k)%nat ->
  let r := executeTaskWithRetry task retryCount n in
  (1 <= invocations r.1)%nat
  /\ Z.of_nat (invocations r.1) <= Z.max 1 (retryCap - retryCount)
  /\ invoked r.1 = seq n (invocations r.1)
  /\ r.2 = settleAs (task (n + invocations r.1 - 1)%nat)
  /\ (forall (j : nat) (w : Z),
        waits r.1 !! j = Some w -> w = (retryCount + Z.of_nat j + 1) * backoffUnitMs)
  /\ (length (waits r.1) <= invocations r.1)%nat.
Proof.
  unfold retryCap.
  induction k as [|k IH]; intros retryCount n Hk; rewrite executeTaskWithRetry_eq.
  all: destruct (task n) as [|e] eqn:Htask.
  all: try (cbn; replace (n + 1 - 1)%nat with n by lia; rewrite Htask;
            repeat split; try lia; intros j w Hj; inversion Hj).
  all: destruct (notRetryable e).
  all: try (cbn; replace (n + 1 - 1)%nat with n by lia; rewrite Htask;
            repeat split; try lia; intros j w Hj; inversion Hj).
  all: destruct (triesConsumed e retryCount).
  all: try (cbn; replace (n + 1 - 1)%nat with n by lia; rewrite Htask;
            repeat split; try lia; intros j w Hj; inversion Hj).
  all: unfold retryCap; destruct (Z.ltb_spec (retryCount + 1) 3) as [Hc|Hc]; try lia.
  all: try (cbn; replace (n + 1 - 1)%nat with n by lia; rewrite Htask;
            repeat split; try lia;
            intros [|j] w Hj; cbn in Hj; [injection Hj as <-; unfold sleepMs; lia|inversion Hj]).
  cbv zeta. cbn [fst snd invocations invoked waits].
  rewrite invocations_logs, invoked_logs, waits_logs.
  destruct (IH (retryCount + 1) (S n)) as (H1 & H2 & H3 & H4 & H5 & H6); [lia|].
  cbv zeta in H1, H2, H3, H4, H5, H6.
  set (r := executeTaskWithRetry task (retryCount + 1) (S n)) in *.
  split; [lia|]. split; [lia|]. split; [cbn; rewrite H3; reflexivity|].
  split.
  { rewrite H4. f_equal. f_equal. lia. }
  split.
  { intros [|j] w Hj; cbn in Hj.
    - injection Hj as <-. unfold sleepMs. lia.
    - rewrite (H5 j w Hj). lia. }
  cbn. lia.
Qed.

(** X1. Whatever the task does and whatever [retryCount] the executor is
    entered with, the task is invoked at least once and at most
    [max 1 (3 - retryCount)] times: never more than 3 times from a
    [retryCount] that is not negative, and the invocations are
    consecutive. *)
Theorem retry_invocations_bounded (task : task_body) (retryCount : Z) (n : nat) :
  let r := executeTaskWithRetry task retryCount n in
  (1 <= invocations r.1)%nat
  /\ Z.of_nat (invocations r.1) <= Z.max 1 (retryCap - retryCount)
  /\ invoked r.1 = seq n (invocations r.1).
Proof.
  destruct (retry_shape task (Z.to_nat (retryCap - retryCount)) retryCount n (le_n _))
    as (H1 & H2 & H3 & _).
  cbv zeta. auto.
Qed.

(** X2. The promise of the executor settles the way the last invocation
    it made did: fulfilled if that one resolved, and otherwise rejected
    with the error of that last invocation, not of an earlier one. *)
Theorem retry_settles_as_last_invocation (task : task_body) (retryCount : Z) (n : nat) :
  let r := executeTaskWithRetry task retryCount n in
  r.2 = settleAs (task (n + invocations r.1 - 1)%nat).
Proof.
  destruct (retry_shape task (Z.to_nat (retryCap - retryCount)) retryCount n (le_n _))
    as (_ & _ & _ & H4 & _).
  exact H4.
Qed.



(** X4. A task that fails at most twice with errors that leave a retry
    open (not marked non-retryable, declared budget not used up) and then
    resolves is reported fulfilled: from [retryCount = 0], with [j] such
    failures the run makes [j + 1] invocations and waits 30000 ms, then
    60000 ms, between them. *)
Theorem retry_recovers (task : task_body) (j : nat) :
  (j <= 2)%nat ->
  (forall i, (i < j)%nat ->
     exists e, task i = Rejects e /\ notRetryable e = false
               /\ triesConsumed e (Z.of_nat i) = false) ->
  task j = Resolves ->
  let r := executeTaskWithRetry task 0 0 in
  r.2 = Fulfilled
  /\ invocations r.1 = S j
  /\ waits r.1 = take j [30000; 60000].
Proof.
  intros Hj Hfail Hok.
  destruct j as [|[|[|j]]]; [| | |lia].
  - cbv zeta. rewrite executeTaskWithRetry_eq, Hok. auto.
  - destruct (Hfail 0%nat) as (e0 & H0 & Hn0 & Ht0); [lia|].
    cbv zeta. rewrite executeTaskWithRetry_eq, H0, Hn0. change (Z.of_nat 0) with 0 in Ht0. rewrite Ht0.
    change (0 + 1 <? retryCap) with true. cbv iota zeta.
    rewrite executeTaskWithRetry_eq, Hok. cbn [fst snd invocations waits].
    rewrite invocations_logs, waits_logs. auto.
  - destruct (Hfail 0%nat) as (e0 & H0 & Hn0 & Ht0); [lia|].
    destruct (Hfail 1%nat) as (e1 & H1 & Hn1 & Ht1); [lia|].
    cbv zeta. rewrite executeTaskWithRetry_eq, H0, Hn0. change (Z.of_nat 0) with 0 in Ht0. rewrite Ht0.
    change (0 + 1 <? retryCap) with true. cbv iota zeta.
    rewrite executeTaskWithRetry_eq, H1, Hn1. change (0 + 1) with 1.
    change (Z.of_nat 1) with 1 in Ht1. rewrite Ht1.
    change (1 + 1 <? retryCap) with true. cbv iota zeta.
    rewrite executeTaskWithRetry_eq, Hok. cbn [fst snd invocations waits].
    rewrite !invocations_logs, !waits_logs. cbn [fst snd invocations waits].
    rewrite !invocations_logs, !waits_logs. auto.
Qed.

Lemma retry_recovers_witness :
  let task : task_body :=
    fun i => if (i <? 2)%nat then Rejects (KnownError "flaky" true 5) else Resolves in
  let r := executeTaskWithRetry task 0 0 in
  r.2 = Fulfilled /\ invocations r.1 = 3%nat /\ waits r.1 = [30000; 60000].
Proof.
  intros task.
  apply (retry_recovers task 2).
  - lia.
  - intros i Hi. exists (KnownError "flaky" true 5).
    destruct i as [|[|i]]; [| |lia]; repeat split.
  - reflexivity.
Defined.

Ltac short_run :=
  unfold totalWait, sleepMs, backoffUnitMs; cbn; rewrite ?waits_logs; cbn;
  split; [lia|intros H; exfalso; lia].

(** X5. From [retryCount = 0] the executor spends at most 180000 ms in
    its own waits, whatever the task does: the three minutes are reached
    only by the run that gives up at the hardcoded cap. *)
Theorem retry_total_wait_bounded (task : task_body) (n : nat) :
  let r := executeTaskWithRetry task 0 n in
  0 <= totalWait r.1 <= 180000
  /\ (totalWait r.1 = 180000 -> invocations r.1 = 3%nat /\ endsWithSleep r.1 <> None).
Proof.
  cbv zeta.
  rewrite executeTaskWithRetry_eq.
  destruct (task n) as [|e0]; [short_run|].
  destruct (notRetryable e0); [short_run|].
  destruct (triesConsumed e0 0); [short_run|].
  change (0 + 1 <? retryCap) with true. cbv iota zeta. change (0 + 1) with 1.
  rewrite executeTaskWithRetry_eq.
  destruct (task (S n)) as [|e1]; [short_run|].
  destruct (notRetryable e1); [short_run|].
  destruct (triesConsumed e1 1); [short_run|].
  change (1 + 1 <? retryCap) with true. cbv iota zeta. change (1 + 1) with 2.
  rewrite executeTaskWithRetry_eq.
  destruct (task (S (S n))) as [|e2]; [short_run|].
  destruct (notRetryable e2); [short_run|].
  destruct (triesConsumed e2 2); [short_run|].
  change (2 + 1 <? retryCap) with false. cbv iota.
  unfold totalWait, sleepMs, backoffUnitMs; cbn; rewrite ?waits_logs; cbn.
  split; [lia|]. intros _. split; [reflexivity|discriminate].
Qed.

Lemma retry_total_wait_witness :
  let r := executeTaskWithRetry (fun _ => Rejects (OtherError "boom")) 0 0 in
  totalWait r.1 = 180000 /\ invocations r.1 = 3%nat.
Proof.
  intros r.
  assert (H : totalWait r.1 = 180000) by (vm_compute; reflexivity).
  split; [exact H|].
  apply (retry_total_wait_bounded (fun _ => Rejects (OtherError "boom")) 0). exact H.
Defined.

(** ** The registry and the executions behind it *)

(** X6. [addJob] does not look for the id: below capacity, an id that is
    already registered is accepted again.  The entry is overwritten with
    the new [startedAt] and [metadata], the count stays what it was (the
    call uses no slot), and a second execution is started next to the one
    that is still running. *)
Theorem addJob_duplicate_id (jobId : string) (task : task_body)
    (metadata : option string) (now retryCount : Z) (rt : Runtime) (old : JobInfo) :
  jobs (store rt) !! jobId = Some old ->
  getActiveCount (store rt) < maxConcurrent (store rt) ->
  shutdownRequested (store rt) = false ->
  let r := addJob jobId task metadata now retryCount rt in
  r.2 = true
  /\ getActiveCount (store r.1) = getActiveCount (store rt)
  /\ jobs (store r.1) !! jobId = Some (mkJobInfo jobId now metadata)
  /\ (forall id, id <> jobId -> jobs (store r.1) !! id = jobs (store rt) !! id)
  /\ execs r.1 = execs rt ++ [mkExecution jobId task (AwaitingTask retryCount 0)].
Proof.
  intros Hold Hlt Hsd r. subst r. rewrite addJob_accepts by assumption. cbn.
  split; [reflexivity|]. split.
  { unfold getActiveCount. cbn. rewrite map_size_insert_Some by eauto. reflexivity. }
  split; [apply lookup_insert_eq|]. split; [|reflexivity].
  intros id Hne. apply lookup_insert_ne. congruence.
Qed.

Lemma addJob_duplicate_id_witness :
  let rt := (addJob "a" (fun _ => Resolves) None 10 0 (boot 3)).1 in
  let r := addJob "a" (fun _ => Rejects (OtherError "boom")) (Some "again") 20 0 rt in
  r.2 = true
  /\ getActiveCount (store r.1) = 1
  /\ jobs (store r.1) !! "a" = Some (mkJobInfo "a" 20 (Some "again"))
  /\ length (execs r.1) = 2%nat.
Proof.
  intros rt r.
  assert (Hold : jobs (store rt) !! "a" = Some (mkJobInfo "a" 10 None))
    by (vm_compute; reflexivity).
  assert (Hlt : getActiveCount (store rt) < maxConcurrent (store rt))
    by (vm_compute; reflexivity).
  assert (Hsd : shutdownRequested (store rt) = false) by reflexivity.
  destruct (addJob_duplicate_id "a" (fun _ => Rejects (OtherError "boom")) (Some "again")
              20 0 rt (mkJobInfo "a" 10 None) Hold Hlt Hsd) as (H1 & H2 & H3 & _ & H5).
  fold r in H1, H2, H3, H5. repeat split; assumption.
Defined.

(** X7. The [finally] of line 52 deletes by id, whoever owns the entry:
    when two executions carry the same id, the first one to finish
    unregisters the id although the other is still running and is left
    untouched. *)
Theorem finished_duplicate_unregisters_other (rt : Runtime) (p q : nat)
    (x y : Execution) (r : settled) :
  p <> q ->
  execs rt !! p = Some x ->
  execs rt !! q = Some y ->
  ex_jobId x = ex_jobId y ->
  ex_state x = Settled r ->
  unfinished y = true ->
  exists rt',
    step (ChainRuns p) rt = Some rt'
    /\ jobs (store rt') !! ex_jobId y = None
    /\ execs rt' !! q = Some y.
Proof.
  intros Hpq Hp Hq Hid Hst Hy.
  exists (runChain p x r rt). split; [apply step_ChainRuns; assumption|].
  cbn. split; [rewrite <- Hid; apply lookup_delete_eq|].
  rewrite list_lookup_insert_ne by exact Hpq. exact Hq.
Qed.

Lemma finished_duplicate_witness :
  let rt := default (boot 3)
              (run [CallAddJob "a" (fun _ => Resolves) None 10 0;
                    CallAddJob "a" (fun _ => Rejects (OtherError "boom")) None 20 0;
                    TaskSettles 0] (boot 3)) in
  let y := mkExecution "a" (fun _ => Rejects (OtherError "boom")) (AwaitingTask 0 0) in
  exists rt',
    step (ChainRuns 0) rt = Some rt'
    /\ jobs (store rt') !! "a" = None
    /\ execs rt' !! 1%nat = Some y.
Proof.
  intros rt y.
  assert (Hp : execs rt !! 0%nat
               = Some (mkExecution "a" (fun _ => Resolves) (Settled Fulfilled)))
    by (vm_compute; reflexivity).
  assert (Hq : execs rt !! 1%nat = Some y) by (vm_compute; reflexivity).
  apply (finished_duplicate_unregisters_other rt 0 1 _ y Fulfilled
           ltac:(discriminate) Hp Hq eq_refl eq_refl eq_refl).
Defined.

Lemma unfinished_state (jid : string) (task : task_body) (st : exec_state) :
  st <> Finished -> unfinished (mkExecution jid task st) = true.
Proof. unfold unfinished. cbn. destruct st; congruence. Qed.

(** Each atomic block keeps [entriesLive]. *)
Lemma step_entriesLive (ev : event) (rt rt' : Runtime) :
  step ev rt = Some rt' -> entriesLive rt -> entriesLive rt'.
Proof.
  intros Hstep Hinv id info Hid.
  destruct ev as [jid task metadata now retryCount| | |p|p|p|wid]; cbn in Hstep.
  - unfold addJob in Hstep.
    destruct ((getActiveCount (store rt) >=? maxConcurrent (store rt))
              || shutdownRequested (store rt)); cbn in Hstep; injection Hstep as <-.
    + apply Hinv. exact Hid.
    + cbn in Hid |- *. destruct (decide (jid = id)) as [->|Hne].
      * rewrite lookup_insert_eq in Hid. injection Hid as <-. split; [reflexivity|].
        exists (length (execs rt)), (mkExecution id task (AwaitingTask retryCount 0)).
        split; [apply list_lookup_middle; reflexivity|]. split; reflexivity.
      * rewrite lookup_insert_ne in Hid by exact Hne.
        destruct (Hinv id info Hid) as (Hk & pid & x & Hx & Hj & Hu).
        split; [exact Hk|]. exists pid, x.
        split; [apply lookup_app_l_Some; exact Hx|]. auto.
  - injection Hstep as <-. cbn in Hid |- *. apply Hinv. exact Hid.
  - injection Hstep as <-. unfold waitForCompletion in Hid |- *.
    destruct (size (jobs (store rt)) =? 0)%nat; cbn in Hid |- *; apply Hinv; exact Hid.
  - destruct (execs rt !! p) as [z|] eqn:Hz; [|discriminate].
    destruct (ex_state z) eqn:Hsz; try discriminate. injection Hstep as <-.
    cbn in Hid |- *.
    destruct (Hinv id info Hid) as (Hk & pid & x & Hx & Hj & Hu).
    split; [exact Hk|].
    destruct (decide (p = pid)) as [->|Hne].
    + eexists pid, _. split; [apply list_lookup_insert_eq; eapply lookup_lt_Some; eauto|].
      cbn. split; [congruence|]. apply unfinished_state. apply onTaskSettled_not_Finished.
    + exists pid, x. rewrite list_lookup_insert_ne by exact Hne. auto.
  - destruct (execs rt !! p) as [z|] eqn:Hz; [|discriminate].
    destruct (ex_state z) eqn:Hsz; try discriminate. injection Hstep as <-.
    cbn in Hid |- *.
    destruct (Hinv id info Hid) as (Hk & pid & x & Hx & Hj & Hu).
    split; [exact Hk|].
    destruct (decide (p = pid)) as [->|Hne].
    + eexists pid, _. split; [apply list_lookup_insert_eq; eapply lookup_lt_Some; eauto|].
      cbn. split; [congruence|]. apply unfinished_state. apply onSleepElapsed_not_Finished.
    + exists pid, x. rewrite list_lookup_insert_ne by exact Hne. auto.
  - destruct (execs rt !! p) as [z|] eqn:Hz; [|discriminate].
    destruct (ex_state z) eqn:Hsz; try discriminate. injection Hstep as <-.
    cbn in Hid |- *.
    destruct (decide (ex_jobId z = id)) as [Heq|Hne].
    + rewrite Heq, lookup_delete_eq in Hid. discriminate.
    + rewrite lookup_delete_ne in Hid by exact Hne.
      destruct (Hinv id info Hid) as (Hk & pid & x & Hx & Hj & Hu).
      split; [exact Hk|]. exists pid, x.
      rewrite list_lookup_insert_ne; [auto|]. intros ->. congruence.
  - destruct (waiters rt !! wid) as [[|ms]|]; try discriminate.
    injection Hstep as <-. cbn in Hid |- *. apply Hinv. exact Hid.
Qed.

Lemma reachable_entriesLive (N : Z) (rt : Runtime) :
  reachable N rt -> entriesLive rt.
Proof.
  intros [evs Hrun].
  eapply (run_ind_inv entriesLive); [exact step_entriesLive|exact Hrun|].
  intros id info H. cbn in H. rewrite lookup_empty in H. discriminate.
Qed.

(** X8. The registry holds no stale entry: in every state the process
    can reach, each registered job is filed under its own [jobId] and has
    an execution in flight (one whose [finally] has not run) with that
    id. *)
Theorem registry_entries_are_live (N : Z) (rt : Runtime) (id : string) (info : JobInfo) :
  reachable N rt ->
  jobs (store rt) !! id = Some info ->
  jobId info = id
  /\ exists pid x, execs rt !! pid = Some x /\ ex_jobId x = id /\ unfinished x = true.
Proof.
  intros Hreach Hid. exact (reachable_entriesLive N rt Hreach id info Hid).
Qed.

Lemma registry_entries_are_live_witness :
  let rt := (addJob "a" (fun _ => Resolves) None 10 0 (boot 2)).1 in
  jobs (store rt) !! "a" = Some (mkJobInfo "a" 10 None)
  /\ exists pid x, execs rt !! pid = Some x /\ ex_jobId x = "a" /\ unfinished x = true.
Proof.
  intros rt.
  assert (Hin : jobs (store rt) !! "a" = Some (mkJobInfo "a" 10 None))
    by (vm_compute; reflexivity).
  split; [exact Hin|].
  apply (registry_entries_are_live 2 rt "a" (mkJobInfo "a" 10 None)).
  - exists [CallAddJob "a" (fun _ => Resolves) None 10 0]. reflexivity.
  - exact Hin.
Defined.

(** Counting the executions in flight across an update of one of them. *)
Lemma live_count_insert_same (l : list Execution) (i : nat) (x y : Execution) :
  l !! i = Some x ->
  unfinished x = unfinished y ->
  length (filter (fun z => unfinished z = true) (<[i := y]> l))
  = length (filter (fun z => unfinished z = true) l).
Proof.
  revert i. induction l as [|a l IH]; intros [|i] Hi Hxy; cbn in Hi; try discriminate.
  - injection Hi as ->. change (<[0%nat := y]> (x :: l)) with (y :: l).
    rewrite !filter_cons. rewrite Hxy.
    destruct (decide (unfinished y = true)); reflexivity.
  - change (<[S i := y]> (a :: l)) with (a :: <[i := y]> l). rewrite !filter_cons.
    destruct (decide (unfinished a = true)); cbn [length];
      rewrite (IH i Hi Hxy); reflexivity.
Qed.

Lemma live_count_insert_finished (l : list Execution) (i : nat) (x y : Execution) :
  l !! i = Some x ->
  unfinished x = true ->
  unfinished y = false ->
  S (length (filter (fun z => unfinished z = true) (<[i := y]> l)))
  = length (filter (fun z => unfinished z = true) l).
Proof.
  revert i. induction l as [|a l IH]; intros [|i] Hi Hx Hy; cbn in Hi; try discriminate.
  - injection Hi as ->. change (<[0%nat := y]> (x :: l)) with (y :: l).
    rewrite !filter_cons.
    destruct (decide (unfinished y = true)); [congruence|].
    destruct (decide (unfinished x = true)); [reflexivity|congruence].
  - change (<[S i := y]> (a :: l)) with (a :: <[i := y]> l). rewrite !filter_cons.
    destruct (decide (unfinished a = true)); cbn [length];
      rewrite <- (IH i Hi Hx Hy); reflexivity.
Qed.

(** An update of execution [p] that keeps its id and keeps it in flight
    shows the same ids in flight at the same places. *)
Lemma lookup_updated_exec (l : list Execution) (p i : nat) (z x' : Execution)
    (st : exec_state) :
  l !! p = Some z ->
  unfinished z = true ->
  <[p := mkExecution (ex_jobId z) (ex_task z) st]> l !! i = Some x' ->
  exists x, l !! i = Some x /\ ex_jobId x = ex_jobId x'
            /\ (unfinished x' = true -> unfinished x = true)
            /\ (i <> p -> x = x').
Proof.
  intros Hz Hu Hx'. destruct (decide (p = i)) as [->|Hne].
  - rewrite list_lookup_insert_eq in Hx' by (eapply lookup_lt_Some; eauto).
    injection Hx' as <-. exists z. cbn. repeat split; auto. congruence.
  - rewrite list_lookup_insert_ne in Hx' by exact Hne. exists x'. repeat split; auto.
Qed.

(** Each atomic block keeps [accounted], an [addJob] provided its id is
    not registered at the time. *)
Lemma step_accounted (ev : event) (rt rt' : Runtime) :
  step ev rt = Some rt' ->
  (forall jid task metadata now retryCount,
     ev = CallAddJob jid task metadata now retryCount -> jobs (store rt) !! jid = None) ->
  accounted rt -> accounted rt'.
Proof.
  intros Hstep Hfresh [[Hreg Hdist] Hcount].
  unfold accounted, liveRegistered, liveJobIds, getActiveCount in *.
  rewrite length_fmap in Hcount. rewrite length_fmap.
  destruct ev as [jid task metadata now retryCount| | |p|p|p|wid]; cbn in Hstep.
  - specialize (Hfresh jid task metadata now retryCount eq_refl).
    unfold addJob in Hstep.
    destruct ((getActiveCount (store rt) >=? maxConcurrent (store rt))
              || shutdownRequested (store rt)); cbn in Hstep; injection Hstep as <-.
    { auto. }
    cbn. split; [split|].
    + intros pid x Hx Hu. apply lookup_snoc_Some in Hx as [[_ Hx]|[_ <-]].
      * destruct (decide (jid = ex_jobId x)) as [->|Hne].
        -- rewrite lookup_insert_eq. eauto.
        -- rewrite lookup_insert_ne by exact Hne. eapply Hreg; eauto.
      * cbn. rewrite lookup_insert_eq. eauto.
    + intros a b x y Hx Hy Hux Huy Hid.
      apply lookup_snoc_Some in Hx as [[Ha Hx]|[-> <-]];
        apply lookup_snoc_Some in Hy as [[Hb Hy]|[-> <-]].
      * eapply Hdist; eauto.
      * exfalso. cbn in Hid. destruct (Hreg a x Hx Hux) as [v Hv]. congruence.
      * exfalso. cbn in Hid. destruct (Hreg b y Hy Huy) as [v Hv]. congruence.
      * reflexivity.
    + rewrite map_size_insert_None by exact Hfresh.
      rewrite filter_app, length_app.
      rewrite filter_cons_True by reflexivity. rewrite filter_nil. cbn [length]. lia.
  - injection Hstep as <-. cbn. auto.
  - injection Hstep as <-. unfold waitForCompletion.
    destruct (size (jobs (store rt)) =? 0)%nat; cbn; auto.
  - destruct (execs rt !! p) as [z|] eqn:Hz; [|discriminate].
    destruct (ex_state z) eqn:Hsz; try discriminate. injection Hstep as <-. cbn.
    assert (Huz : unfinished z = true) by (unfold unfinished; rewrite Hsz; reflexivity).
    split; [split|].
    + intros pid x' Hx' Hu'.
      destruct (lookup_updated_exec _ _ _ _ _ _ Hz Huz Hx') as (x & Hx & Hj & Hu & _).
      rewrite <- Hj. eapply Hreg; eauto.
    + intros a b x' y' Hx' Hy' Hux Huy Hid.
      destruct (lookup_updated_exec _ _ _ _ _ _ Hz Huz Hx') as (x & Hx & Hjx & Hu1 & _).
      destruct (lookup_updated_exec _ _ _ _ _ _ Hz Huz Hy') as (y & Hy & Hjy & Hu2 & _).
      eapply (Hdist a b x y); eauto. congruence.
    + rewrite (live_count_insert_same _ _ z); [exact Hcount|exact Hz|].
      rewrite Huz. symmetry. apply unfinished_state. apply onTaskSettled_not_Finished.
  - destruct (execs rt !! p) as [z|] eqn:Hz; [|discriminate].
    destruct (ex_state z) eqn:Hsz; try discriminate. injection Hstep as <-. cbn.
    assert (Huz : unfinished z = true) by (unfold unfinished; rewrite Hsz; reflexivity).
    split; [split|].
    + intros pid x' Hx' Hu'.
      destruct (lookup_updated_exec _ _ _ _ _ _ Hz Huz Hx') as (x & Hx & Hj & Hu & _).
      rewrite <- Hj. eapply Hreg; eauto.
    + intros a b x' y' Hx' Hy' Hux Huy Hid.
      destruct (lookup_updated_exec _ _ _ _ _ _ Hz Huz Hx') as (x & Hx & Hjx & Hu1 & _).
      destruct (lookup_updated_exec _ _ _ _ _ _ Hz Huz Hy') as (y & Hy & Hjy & Hu2 & _).
      eapply (Hdist a b x y); eauto. congruence.
    + rewrite (live_count_insert_same _ _ z); [exact Hcount|exact Hz|].
      rewrite Huz. symmetry. apply unfinished_state. apply onSleepElapsed_not_Finished.
  - destruct (execs rt !! p) as [z|] eqn:Hz; [|discriminate].
    destruct (ex_state z) eqn:Hsz; try discriminate. injection Hstep as <-. cbn.
    assert (Huz : unfinished z = true) by (unfold unfinished; rewrite Hsz; reflexivity).
    assert (Hother : forall i x', <[p := mkExecution (ex_jobId z) (ex_task z) Finished]>
                                    (execs rt) !! i = Some x' ->
                       unfinished x' = true -> i <> p /\ execs rt !! i = Some x').
    { intros i x' Hx' Hu'. destruct (decide (p = i)) as [->|Hne].
      - rewrite list_lookup_insert_eq in Hx' by (eapply lookup_lt_Some; eauto).
        injection Hx' as <-. discriminate.
      - rewrite list_lookup_insert_ne in Hx' by exact Hne. auto. }
    split; [split|].
    + intros pid x' Hx' Hu'. destruct (Hother pid x' Hx' Hu') as [Hne Hx].
      rewrite lookup_delete_ne; [eapply Hreg; eauto|].
      intros Heq. apply Hne. eapply (Hdist pid p x' z); eauto.
    + intros a b x' y' Hx' Hy' Hux Huy Hid.
      destruct (Hother a x' Hx' Hux) as [_ Hx]. destruct (Hother b y' Hy' Huy) as [_ Hy].
      eapply (Hdist a b x' y'); eauto.
    + destruct (Hreg p z Hz Huz) as [v Hv].
      pose proof (live_count_insert_finished (execs rt) p z
                    (mkExecution (ex_jobId z) (ex_task z) Finished) Hz Huz eq_refl) as Hl.
      rewrite map_size_delete, Hv. 
      assert (size (jobs (store rt)) <> 0%nat)
        by (eapply map_size_ne_0_lookup_2; eauto).
      lia.
  - destruct (waiters rt !! wid) as [[|ms]|]; try discriminate.
    injection Hstep as <-. cbn. auto.
Qed.

Lemma run_accounted (evs : list event) :
  forall rt rt' : Runtime,
  freshIds evs rt = true ->
  run evs rt = Some rt' ->
  accounted rt -> accounted rt'.
Proof.
  induction evs as [|ev evs IH]; intros rt rt' Hfresh Hrun Hacc; cbn in Hrun, Hfresh.
  - injection Hrun as <-. exact Hacc.
  - destruct (step ev rt) as [rt1|] eqn:H1; [|discriminate].
    apply andb_prop in Hfresh as [Hev Hrest].
    apply (IH rt1 rt' Hrest Hrun).
    apply (step_accounted ev rt rt1 H1); [|exact Hacc].
    intros jid task metadata now retryCount ->. cbn in Hev.
    apply bool_decide_eq_true in Hev. exact Hev.
Qed.

Lemma run_withinCapacity (evs : list event) (rt rt' : Runtime) :
  run evs rt = Some rt' ->
  withinCapacity rt ->
  withinCapacity rt' /\ maxConcurrent (store rt') = maxConcurrent (store rt).
Proof.
  intros Hrun Hc.
  apply (run_ind_inv (fun s => withinCapacity s
                               /\ maxConcurrent (store s) = maxConcurrent (store rt))
           ) with (evs := evs) (rt := rt); [|exact Hrun|auto].
  intros ev s s' Hs [Hcs Hm]. split.
  - eapply step_withinCapacity; eauto.
  - destruct (step_store ev s s' Hs) as (Hmax & _). congruence.
Qed.

(** X9. When callers keep ids unique (no [addJob] with an id that is
    registered at the time), the registry counts exactly the executions
    in flight: every running execution is registered, [getActiveCount()]
    is their number, and so at most [maxConcurrent] task bodies run at
    once. *)
Theorem unique_ids_exact_accounting (N : Z) (evs : list event) (rt : Runtime) :
  0 <= N ->
  freshIds evs (boot N) = true ->
  run evs (boot N) = Some rt ->
  getActiveCount (store rt) = Z.of_nat (length (liveJobIds rt))
  /\ Z.of_nat (length (liveJobIds rt)) <= N
  /\ (forall pid x, execs rt !! pid = Some x -> unfinished x = true ->
        is_Some (jobs (store rt) !! ex_jobId x)).
Proof.
  intros HN Hfresh Hrun.
  assert (H0 : accounted (boot N)).
  { split; [split|].
    - intros pid x Hx. cbn in Hx. rewrite lookup_nil in Hx. discriminate.
    - intros p q x y Hx. cbn in Hx. rewrite lookup_nil in Hx. discriminate.
    - unfold getActiveCount. cbn. rewrite map_size_empty. reflexivity. }
  destruct (run_accounted evs (boot N) rt Hfresh Hrun H0) as [[Hreg _] Hcount].
  destruct (run_withinCapacity evs (boot N) rt Hrun) as [Hc Hm].
  { unfold withinCapacity, getActiveCount. cbn. rewrite map_size_empty. cbn. lia. }
  split; [exact Hcount|]. split; [|exact Hreg].
  rewrite <- Hcount. unfold withinCapacity in Hc. rewrite Hm in Hc. exact Hc.
Qed.

Lemma unique_ids_witness :
  let evs := [CallAddJob "a" (fun _ => Resolves) None 10 0;
              CallAddJob "b" (fun _ => Rejects (OtherError "boom")) None 20 0;
              TaskSettles 0; ChainRuns 0; CallAddJob "a" (fun _ => Resolves) None 30 0] in
  exists rt, run evs (boot 2) = Some rt
             /\ getActiveCount (store rt) = Z.of_nat (length (liveJobIds rt))
             /\ getActiveCount (store rt) = 2.
Proof.
  intros evs.
  destruct (run evs (boot 2)) as [rt|] eqn:Hrun; [|vm_compute in Hrun; discriminate].
  exists rt. split; [reflexivity|].
  destruct (unique_ids_exact_accounting 2 evs rt) as (Hc & _ & _).
  - lia.
  - vm_compute. reflexivity.
  - exact Hrun.
  - split; [exact Hc|]. vm_compute in Hrun. injection Hrun as <-. vm_compute. reflexivity.
Defined.

(** ** Shutdown and drain *)

Lemma step_after_shutdown (ev : event) (rt : Runtime) :
  step ev (requestShutdown rt) =
  if isAddJob ev then Some (requestShutdown rt) else requestShutdown <$> step ev rt.
Proof.
  destruct ev as [jid task metadata now retryCount| | |p|p|p|wid]; cbn.
  - rewrite addJob_rejects by (right; reflexivity). reflexivity.
  - reflexivity.
  - unfold waitForCompletion, requestShutdown, checkCompletion. cbn.
    destruct (size (jobs (store rt)) =? 0)%nat; reflexivity.
  - destruct (execs rt !! p) as [x|]; [|reflexivity].
    destruct (ex_state x); reflexivity.
  - destruct (execs rt !! p) as [x|]; [|reflexivity].
    destruct (ex_state x); reflexivity.
  - destruct (execs rt !! p) as [x|]; [|reflexivity].
    destruct (ex_state x); reflexivity.
  - destruct (waiters rt !! wid) as [[|ms]|]; try reflexivity.
Qed.

(** X10. [requestShutdown()] changes nothing for the jobs that are
    running: after it, the process goes through any schedule exactly as it
    would have without it, except that the calls of [addJob] in the
    schedule do nothing and the flag is set. *)
Theorem shutdown_only_stops_admission (evs : list event) (rt : Runtime) :
  run evs (requestShutdown rt)
  = requestShutdown <$> run (filter (fun ev => isAddJob ev = false) evs) rt.
Proof.
  revert rt. induction evs as [|ev evs IH]; intros rt; [reflexivity|].
  cbn [run]. rewrite step_after_shutdown, filter_cons.
  destruct (isAddJob ev) eqn:Hadd.
  - destruct (decide (true = false)) as [?|_]; [discriminate|]. apply IH.
  - destruct (decide (false = false)) as [_|?]; [|congruence].
    cbn [run]. destruct (step ev rt) as [rt1|]; cbn; [apply IH|reflexivity].
Qed.

(** X11. Once shutdown is requested the registry only shrinks: in every
    later state it is a sub-map of what it was at the request, so
    [getActiveCount()] never goes up again. *)
Theorem shutdown_registry_only_shrinks (rt0 : Runtime) (evs : list event) (rt : Runtime) :
  run evs (requestShutdown rt0) = Some rt ->
  jobs (store rt) ⊆ jobs (store rt0)
  /\ getActiveCount (store rt) <= getActiveCount (store rt0).
Proof.
  intros Hrun.
  assert (H : shutdownRequested (store rt) = true /\ jobs (store rt) ⊆ jobs (store rt0)).
  { eapply (run_ind_inv (fun s => shutdownRequested (store s) = true
                                  /\ jobs (store s) ⊆ jobs (store rt0)));
      [|exact Hrun|split; reflexivity].
    intros ev s s' Hs [Hsd Hsub].
    destruct (step_store ev s s' Hs) as (_ & Hkeep & [Hshrink|Hins]).
    - split; [auto|]. etransitivity; eauto.
    - destruct Hins as (jid & task & md & now & rc & -> & _ & _).
      cbn in Hs. rewrite addJob_rejects in Hs by (right; exact Hsd).
      cbn in Hs. injection Hs as <-. auto. }
  destruct H as [_ Hsub]. split; [exact Hsub|].
  apply map_subseteq_size in Hsub. unfold getActiveCount. lia.
Qed.

Lemma shutdown_shrinks_witness :
  let rt0 := (addJob "a" (fun _ => Resolves) None 10 0 (boot 3)).1 in
  let evs := [CallAddJob "b" (fun _ => Resolves) None 20 0; TaskSettles 0; ChainRuns 0] in
  exists rt, run evs (requestShutdown rt0) = Some rt
             /\ getActiveCount (store rt) <= getActiveCount (store rt0)
             /\ getActiveCount (store rt) = 0.
Proof.
  intros rt0 evs.
  destruct (run evs (requestShutdown rt0)) as [rt|] eqn:Hrun;
    [|vm_compute in Hrun; discriminate].
  exists rt. split; [reflexivity|].
  split; [apply (shutdown_registry_only_shrinks rt0 evs rt Hrun)|].
  vm_compute in Hrun. injection Hrun as <-. reflexivity.
Defined.

(** X12. The shutdown sequence on a process with one running job:
    [requestShutdown()] then [waitForCompletion()] leaves the drain
    pending on its timer; when the job has run to its end, whatever its
    task did, the registry is empty and the next tick of the timer
    resolves the drain. *)
Theorem graceful_drain (jobId : string) (task : task_body) (metadata : option string)
    (now retryCount : Z) (rt : Runtime) :
  jobs (store rt) = ∅ ->
  0 < maxConcurrent (store rt) ->
  shutdownRequested (store rt) = false ->
  let rt1 := (addJob jobId task metadata now retryCount rt).1 in
  let rt2 := waitForCompletion (requestShutdown rt1) in
  let pid := length (execs rt) in
  let wid := length (waiters rt) in
  let r := executeTaskWithRetry task retryCount 0 in
  waiters rt2 !! wid = Some (WaitTimer 1000)
  /\ exists rt3,
       run (eventsOf pid r.1 ++ [ChainRuns pid; DrainTimer wid]) rt2 = Some rt3
       /\ jobs (store rt3) = ∅
       /\ waiters rt3 !! wid = Some WaitResolved
       /\ shutdownRequested (store rt3) = true.
Proof.
  intros Hempty Hcap Hsd rt1 rt2 pid wid r.
  assert (Hlt : getActiveCount (store rt) < maxConcurrent (store rt)).
  { unfold getActiveCount. rewrite Hempty, map_size_empty. exact Hcap. }
  assert (Hrt1 : rt1 = (addJob jobId task metadata now retryCount rt).1) by reflexivity.
  rewrite addJob_accepts in Hrt1 by assumption. cbn [fst] in Hrt1.
  assert (Hjobs1 : jobs (store rt1) = {[jobId := mkJobInfo jobId now metadata]}).
  { rewrite Hrt1. cbn. rewrite Hempty. reflexivity. }
  assert (Hbusy : getActiveCount (store (requestShutdown rt1)) <> 0).
  { unfold getActiveCount. cbn. rewrite Hjobs1, map_size_singleton. discriminate. }
  assert (Hrt2 : rt2 = waitForCompletion (requestShutdown rt1)) by reflexivity.
  rewrite waitForCompletion_busy in Hrt2 by exact Hbusy. cbn in Hrt2.
  assert (Hw : waiters rt2 !! wid = Some (WaitTimer 1000)).
  { rewrite Hrt2, Hrt1. cbn. apply list_lookup_middle. reflexivity. }
  split; [exact Hw|].
  assert (Hpid : execs rt2 !! pid
                 = Some (mkExecution jobId task (AwaitingTask retryCount 0))).
  { rewrite Hrt2, Hrt1. cbn. apply list_lookup_middle. reflexivity. }
  pose proof (execution_settles task jobId pid (Z.to_nat (retryCap - retryCount))
                retryCount 0%nat rt2 (le_n _) Hpid) as Hrun.
  cbv zeta in Hrun. fold r in Hrun.
  rewrite run_app, Hrun. cbn [run].
  erewrite step_ChainRuns;
    [|cbn [execs]; apply list_lookup_insert_eq; eapply lookup_lt_Some; eauto|reflexivity].
  cbn [step runChain store execs waiters logs ex_jobId ex_task].
  rewrite Hw.
  assert (Hgone : delete jobId (jobs (store rt2)) = ∅).
  { rewrite Hrt2. cbn. rewrite Hjobs1. apply delete_singleton_eq. }
  unfold checkCompletion, runChain. cbn [store jobs ex_jobId].
  rewrite Hgone, map_size_empty. cbn.
  eexists. split; [reflexivity|]. cbn.
  split; [reflexivity|]. split.
  - apply list_lookup_insert_eq. eapply lookup_lt_Some; eauto.
  - rewrite Hrt2. reflexivity.
Qed.

Lemma graceful_drain_witness :
  let task : task_body := fun _ => Rejects (OtherError "boom") in
  let rt2 := waitForCompletion (requestShutdown (addJob "a" task None 10 0 (boot 1)).1) in
  exists rt3,
    run (eventsOf 0 (executeTaskWithRetry task 0 0).1 ++ [ChainRuns 0; DrainTimer 0]) rt2
    = Some rt3
    /\ jobs (store rt3) = ∅
    /\ waiters rt3 !! 0%nat = Some WaitResolved.
Proof.
  intros task rt2.
  destruct (graceful_drain "a" task None 10 0 (boot 1)) as (_ & rt3 & H1 & H2 & H3 & _).
  - reflexivity.
  - reflexivity.
  - reflexivity.
  - exists rt3. auto.
Defined.

(** ** What the introspection methods show *)

(** X13. In every reachable state [getActiveJobs()] lists exactly the
    registered records: a record is listed iff it is the entry filed
    under its own [jobId], no two listed records share a [jobId], and
    there are [getActiveCount()] of them. *)
Theorem getActiveJobs_lists_registry (N : Z) (rt : Runtime) :
  reachable N rt ->
  Z.of_nat (length (getActiveJobs (store rt))) = getActiveCount (store rt)
  /\ NoDup (jobId <$> getActiveJobs (store rt))
  /\ (forall info, info ∈ getActiveJobs (store rt)
                   <-> jobs (store rt) !! jobId info = Some info).
Proof.
  intros Hreach.
  assert (Hkey : forall id info, jobs (store rt) !! id = Some info -> jobId info = id).
  { intros id info H. apply (reachable_entriesLive N rt Hreach id info H). }
  unfold getActiveJobs, getActiveCount. split; [|split].
  - rewrite length_fmap, length_map_to_list. reflexivity.
  - rewrite <- list_fmap_compose.
    rewrite (list_fmap_ext (jobId ∘ snd) fst (map_to_list (jobs (store rt)))).
    + apply NoDup_fst_map_to_list.
    + intros i [k v] Hi. cbn. apply Hkey. apply elem_of_map_to_list.
      eapply list_elem_of_lookup_2. exact Hi.
  - intros info. rewrite list_elem_of_fmap. split.
    + intros ([k v] & -> & Hin). cbn. apply elem_of_map_to_list in Hin.
      rewrite (Hkey k v Hin). exact Hin.
    + intros H. exists (jobId info, info). split; [reflexivity|].
      apply elem_of_map_to_list. exact H.
Qed.

Lemma getActiveJobs_witness :
  let rt := (addJob "b" (fun _ => Resolves) (Some "m") 20 0
               (addJob "a" (fun _ => Resolves) None 10 0 (boot 2)).1).1 in
  Z.of_nat (length (getActiveJobs (store rt))) = 2
  /\ NoDup (jobId <$> getActiveJobs (store rt)).
Proof.
  intros rt.
  destruct (getActiveJobs_lists_registry 2 rt) as (Hlen & Hnd & _).
  - exists [CallAddJob "a" (fun _ => Resolves) None 10 0;
            CallAddJob "b" (fun _ => Resolves) (Some "m") 20 0]. reflexivity.
  - split; [exact Hlen|exact Hnd].
Defined.

(** X14. What [GET /isbusy] and [GET /metrics] report, in every state
    reachable from [new JobStore(N)], [N >= 0]: [data] is 1 exactly when
    the registry holds [maxConcurrent] jobs, and then every [addJob] is
    refused; [data] is 0 exactly when it holds fewer, and then, unless
    shutdown was requested, every [addJob] is accepted; the two gauges
    are [data] and [1 - data]. *)
Theorem isbusy_route_reports_capacity (N : Z) (rt : Runtime) :
  0 <= N ->
  reachable N rt ->
  let b := (getIsBusyRoute (store rt)).2 in
  (getIsBusyRoute (store rt)).1 = 200
  /\ (ib_data b = 1 <-> ib_activeJobs b = ib_maxConcurrent b)
  /\ (ib_data b = 0 <-> ib_activeJobs b < ib_maxConcurrent b)
  /\ (ib_data b = 1 ->
        forall jobId task metadata now retryCount,
          addJob jobId task metadata now retryCount rt = (rt, false))
  /\ (ib_data b = 0 -> shutdownRequested (store rt) = false ->
        forall jobId task metadata now retryCount,
          (addJob jobId task metadata now retryCount rt).2 = true)
  /\ metricsGauges (store rt) = (ib_data b, 1 - ib_data b).
Proof.
  intros HN [evs Hrun] b. subst b.
  destruct (run_withinCapacity evs (boot N) rt Hrun) as [Hc _].
  { unfold withinCapacity, getActiveCount. cbn. rewrite map_size_empty. cbn. lia. }
  unfold withinCapacity in Hc.
  unfold getIsBusyRoute, metricsGauges, isFull, getMaxConcurrent. cbn.
  destruct (Z.geb_spec (getActiveCount (store rt)) (maxConcurrent (store rt))) as [Hge|Hlt].
  - split; [reflexivity|]. split; [split; [lia|reflexivity]|].
    split; [split; [discriminate|lia]|]. split.
    + intros _ *. apply addJob_rejects. left. lia.
    + split; [discriminate|reflexivity].
  - split; [reflexivity|]. split; [split; [discriminate|lia]|].
    split; [split; [lia|reflexivity]|]. split; [discriminate|]. split; [|reflexivity].
    intros _ Hsd *. rewrite addJob_accepts by assumption. reflexivity.
Qed.

Lemma isbusy_route_witness :
  let rt := (addJob "a" (fun _ => Resolves) None 10 0 (boot 1)).1 in
  ib_data (getIsBusyRoute (store rt)).2 = 1
  /\ addJob "b" (fun _ => Resolves) None 20 0 rt = (rt, false).
Proof.
  intros rt.
  destruct (isbusy_route_reports_capacity 1 rt) as (_ & _ & _ & Hfull & _).
  - lia.
  - exists [CallAddJob "a" (fun _ => Resolves) None 10 0]. reflexivity.
  - split; [reflexivity|]. apply Hfull. reflexivity.
Defined.

(** ** The other polls of the Zoom bot *)

Lemma notify_run_found (evs : list notify_event) :
  forall s s' : Notify,
  notify_run evs s = Some s' ->
  notifyTimersMatch s ->
  foundAny s' = foundAny s || sawButtons evs
  /\ (dismissed s' = true ->
        dismissed s = true \/ timedOut evs = true \/ foundAny s' = true)
  /\ (dismissed s = true \/ timedOut evs = true -> dismissed s' = true).
Proof.
  induction evs as [|ev evs IH]; intros s s' Hrun Hinv; cbn in Hrun.
  - injection Hrun as <-. cbn. rewrite orb_false_r. repeat split; auto.
    intros [H|H]; [exact H|discriminate].
  - destruct (notify_step ev s) as [s1|] eqn:H1; [|discriminate].
    pose proof (notify_step_timersMatch ev s s1 H1 Hinv) as Hinv1.
    destruct (IH s1 s' Hrun Hinv1) as (Hf & Hd & Ht).
    assert (Hstable : dismissed s = true -> dismissed s1 = true).
    { intros Hds. apply (notify_step_dismissed ev s s1 H1 Hinv Hds). }
    notify_cases ev s H1; cbn in Hf, Hd, Ht, Hstable |- *.
    all: try rewrite orb_false_r.
    all: try rewrite orb_true_r.
    all: try (split; [first [exact Hf | rewrite Hf; reflexivity | rewrite Hf; destruct fa; reflexivity]|]).
    all: try (split; [intros H; try (destruct (Hd H) as [?|[?|?]]; now auto) |
                      intros [H|H]; now auto]).
Qed.

(** X15. [dismissDeviceNotifications] resolves before its timeout only
    after some run of its callback has found close buttons: along any
    schedule, [foundAny] is set exactly when such a run has ended, a
    resolved promise means the timeout has fired or buttons were found
    earlier, and once the timeout has fired the promise is resolved. *)
Theorem notify_waits_unless_found (evs : list notify_event) (s : Notify) :
  notify_run evs notifyPromise = Some s ->
  foundAny s = sawButtons evs
  /\ (dismissed s = true -> timedOut evs = true \/ sawButtons evs = true)
  /\ (timedOut evs = true -> dismissed s = true).
Proof.
  intros Hrun.
  destruct (notify_run_found evs notifyPromise s Hrun) as (Hf & Hd & Ht).
  { cbv. auto. }
  cbn in Hf, Hd, Ht. split; [exact Hf|]. split.
  - intros H. destruct (Hd H) as [?|[?|?]]; [discriminate|auto|]. right. congruence.
  - auto.
Qed.

Lemma notify_waits_witness :
  let evs := [NIntervalFires; NButtonsRead (ButtonsFound 0);
              NIntervalFires; NButtonsRead (ButtonsFound 2);
              NIntervalFires; NButtonsRead (ButtonsFound 0)] in
  exists s, notify_run evs notifyPromise = Some s
            /\ dismissed s = true /\ foundAny s = true /\ timedOut evs = false.
Proof.
  intros evs.
  destruct (notify_run evs notifyPromise) as [s|] eqn:Hrun; [|discriminate].
  exists s. split; [reflexivity|].
  destruct (notify_waits_unless_found evs s Hrun) as (Hf & _ & _).
  split; [|split; [exact Hf|reflexivity]].
  vm_compute in Hrun. injection Hrun as <-. reflexivity.
Defined.

Ltac nav_cases ev s H :=
  destruct s as [iv nv at_ st fl]; destruct ev as [|c]; unfold nav_step in H;
  cbn [interv navigated attempt nav_started nav_inFlight] in H;
  [ destruct iv; [|discriminate]; destruct (Nat.leb_spec maxAttempts at_)
  | destruct fl as [|fl]; [discriminate|];
    destruct c; [ | | | destruct (Nat.leb_spec maxAttempts at_) ] ];
  injection H as <-.

Lemma nav_step_timerMatches (ev : nav_event) (s s' : Nav) :
  nav_step ev s = Some s' -> navTimerMatches s -> navTimerMatches s'.
Proof.
  intros H Hinv. unfold navTimerMatches in *.
  nav_cases ev s H; cbn in *; destruct nv; cbn; auto; discriminate.
Qed.

Lemma nav_step_facts (ev : nav_event) (s s' : Nav) :
  nav_step ev s = Some s' ->
  navTimerMatches s ->
  (attempt s <= attempt s')%nat
  /\ (attempt s' <= attempt s + navEnded [ev])%nat
  /\ (forall b, navigated s = Some b ->
        navigated s' = Some b /\ nav_started s' = nav_started s)
  /\ (navigated s = None -> navigated s' = Some false -> (maxAttempts <= attempt s')%nat)
  /\ (navigated s = None -> navigated s' = Some true -> navGone [ev] = true).
Proof.
  intros H Hinv. unfold navTimerMatches in Hinv.
  nav_cases ev s H; cbn in *; repeat split; try lia; try discriminate; auto;
    try (intros b ->; cbn; auto; discriminate);
    try (intros ->; cbn; discriminate).
  all: try (intros b Hb; rewrite Hb in Hinv; discriminate).
  all: subst nv; cbn in *; first [discriminate | reflexivity].
Qed.

Lemma nav_run_facts (evs : list nav_event) :
  forall s s' : Nav,
  nav_run evs s = Some s' ->
  navTimerMatches s ->
  navTimerMatches s'
  /\ (attempt s' <= attempt s + navEnded evs)%nat
  /\ (forall b, navigated s = Some b ->
        navigated s' = Some b /\ nav_started s' = nav_started s)
  /\ (navigated s = None -> navigated s' = Some false -> (maxAttempts <= attempt s')%nat)
  /\ (navigated s = None -> navigated s' = Some true -> navGone evs = true)
  /\ (attempt s <= attempt s')%nat.
Proof.
  induction evs as [|ev evs IH]; intros s s' Hrun Hinv; cbn [nav_run] in Hrun.
  - injection Hrun as <-. repeat split; auto; try lia; intros H1 H2; congruence.
  - destruct (nav_step ev s) as [s1|] eqn:H1; [|discriminate].
    pose proof (nav_step_timerMatches ev s s1 H1 Hinv) as Hinv1.
    destruct (nav_step_facts ev s s1 H1 Hinv) as (Ha & Hb & Hc & Hd & He).
    destruct (IH s1 s' Hrun Hinv1) as (Hi & Ha' & Hc' & Hd' & He' & Hm').
    assert (Hn : (navEnded (ev :: evs) = navEnded [ev] + navEnded evs)%nat)
      by (destruct ev; reflexivity).
    assert (Hg : navGone (ev :: evs) = navGone [ev] || navGone evs)
      by (cbn; rewrite orb_false_r; reflexivity).
    split; [exact Hi|]. split; [lia|]. split.
    { intros b Hb0. destruct (Hc b Hb0) as [Hb1 Hs1].
      destruct (Hc' b Hb1) as [Hb2 Hs2]. split; congruence. }
    split; [|split; [|lia]].
    + intros Hnone Hfalse. destruct (navigated s1) as [b1|] eqn:Hn1.
      * destruct (Hc' b1 eq_refl) as [Hb2 _]. assert (b1 = false) by congruence. subst b1.
        specialize (Hd Hnone eq_refl). lia.
      * apply Hd'; auto.
    + intros Hnone Htrue. rewrite Hg. destruct (navigated s1) as [b1|] eqn:Hn1.
      * destruct (Hc' b1 eq_refl) as [Hb2 _]. assert (b1 = true) by congruence. subst b1.
        rewrite (He Hnone eq_refl). reflexivity.
      * rewrite (He' eq_refl Htrue). apply orb_true_r.
Qed.

(** X16. [waitForLandingPageNav]: along any schedule, the promise
    resolves [false] only when the counter [attempt] has reached 4, which
    takes at least 4 runs of the check that ended; it resolves [true]
    only after a run found the link gone (by count or by TimeoutError);
    and once it is resolved the interval is cleared, no further run
    starts and the value does not change. *)
Theorem nav_gives_up_after_four_checks (evs : list nav_event) (s : Nav) :
  nav_run evs landingPageNav = Some s ->
  (navigated s = Some false -> (4 <= attempt s)%nat /\ (4 <= navEnded evs)%nat)
  /\ (navigated s = Some true -> navGone evs = true)
  /\ (forall b, navigated s = Some b ->
        interv s = false
        /\ nav_step NavTick s = None
        /\ forall evs' s', nav_run evs' s = Some s' ->
             navigated s' = Some b /\ nav_started s' = nav_started s).
Proof.
  intros Hrun.
  assert (H0 : navTimerMatches landingPageNav) by reflexivity.
  destruct (nav_run_facts evs landingPageNav s Hrun H0) as (Hi & Ha & _ & Hd & He & _).
  cbn in Ha, Hd, He. split; [|split].
  - intros Hf. specialize (Hd eq_refl Hf). unfold maxAttempts in Hd. lia.
  - intros Ht. apply He; auto.
  - intros b Hb. pose proof Hi as Hi'. unfold navTimerMatches in Hi'. rewrite Hb in Hi'.
    split; [exact Hi'|]. split; [cbn; rewrite Hi'; reflexivity|].
    intros evs' s' Hrun'.
    destruct (nav_run_facts evs' s s' Hrun' Hi) as (_ & _ & Hc & _). apply Hc. exact Hb.
Qed.

Lemma nav_gives_up_witness :
  let evs := [NavTick; NavCheckEnds StillOnLanding; NavTick; NavCheckEnds StillOnLanding;
              NavTick; NavCheckEnds NavOtherError; NavTick; NavCheckEnds StillOnLanding;
              NavTick] in
  exists s, nav_run evs landingPageNav = Some s
            /\ navigated s = Some false /\ (4 <= attempt s)%nat.
Proof.
  intros evs.
  destruct (nav_run evs landingPageNav) as [s|] eqn:Hrun; [|discriminate].
  exists s. split; [reflexivity|].
  assert (Hf : navigated s = Some false)
    by (vm_compute in Hrun; injection Hrun as <-; reflexivity).
  split; [exact Hf|]. apply (nav_gives_up_after_four_checks evs s Hrun). exact Hf.
Defined.

(** X17. [waitForLandingPageNav] has no time limit of its own: the
    counter moves only when a run of the check ends, so however many
    times the interval fires while the checks hang, the promise stays
    pending and a new run is started each time. *)
Theorem nav_pending_while_checks_hang (n : nat) :
  nav_run (repeat NavTick n) landingPageNav
  = Some {| interv := true; navigated := None; attempt := 0;
            nav_started := n; nav_inFlight := n |}.
Proof.
  assert (H : forall k a,
             nav_run (repeat NavTick k)
               {| interv := true; navigated := None; attempt := 0;
                  nav_started := a; nav_inFlight := a |}
             = Some {| interv := true; navigated := None; attempt := 0;
                       nav_started := k + a; nav_inFlight := k + a |}).
  { induction k as [|k IH]; intros a; [reflexivity|].
    cbn. rewrite IH. repeat f_equal; lia. }
  unfold landingPageNav. rewrite (H n 0%nat). repeat f_equal; lia.
Qed.

(** The body of [detect], as the source has it. *)
Lemma detect_eq (page : mode -> probe) (m : mode) (tried : list mode) :
  detect page m tried =
  if bool_decide (m ∈ tried) then ([], mkDetection false None)
  else match page m with
       | ProbeFound => ([m], mkDetection true (Some (frameOf m)))
       | _ => let r := detect page (other m) (m :: tried) in (m :: r.1, r.2)
       end.
Proof.
  funelim (detect page m tried);
    repeat match goal with
           | H : bool_decide _ = _ |- _ => rewrite H
           | H : page _ = _ |- _ => rewrite H
           end; reflexivity.
Qed.

Lemma detect_second (page : mode -> probe) (m : mode) :
  detect page (other m) [m] =
  match page (other m) with
  | ProbeFound => ([other m], mkDetection true (Some (frameOf (other m))))
  | _ => ([other m], mkDetection false None)
  end.
Proof.
  rewrite detect_eq.
  assert (H1 : bool_decide (other m ∈ [m]) = false).
  { apply bool_decide_eq_false. rewrite list_elem_of_singleton. destruct m; discriminate. }
  rewrite H1.
  assert (H2 : detect page (other (other m)) [other m; m] = ([], mkDetection false None)).
  { rewrite detect_eq.
    assert (H3 : bool_decide (other (other m) ∈ [other m; m]) = true).
    { apply bool_decide_eq_true. destruct m; cbn; set_solver. }
    rewrite H3. reflexivity. }
  destruct (page (other m)); cbv zeta; rewrite ?H2; reflexivity.
Qed.

(** X18. [detectAppContainer] probes the mode it is started with and, only
    if that probe throws or comes back empty, the other mode, and never
    probes a mode twice.  It succeeds exactly when one of these probes
    finds its container, with the container of the first mode that does;
    the frame is [null] exactly when it fails. *)
Theorem detectAppContainer_two_probes (page : mode -> probe) (startWith : mode) :
  let r := detectAppContainer page startWith in
  (r.1 = [startWith] \/ r.1 = [startWith; other startWith])
  /\ (r.1 = [startWith] <-> page startWith = ProbeFound)
  /\ (success r.2 = true
      <-> page startWith = ProbeFound \/ page (other startWith) = ProbeFound)
  /\ container r.2
     = match page startWith, page (other startWith) with
       | ProbeFound, _ => Some (frameOf startWith)
       | _, ProbeFound => Some (frameOf (other startWith))
       | _, _ => None
       end
  /\ (success r.2 = false <-> container r.2 = None).
Proof.
  cbv zeta. unfold detectAppContainer. rewrite detect_eq.
  assert (H0 : bool_decide (startWith ∈ []) = false).
  { apply bool_decide_eq_false. apply not_elem_of_nil. }
  rewrite H0. clear H0.
  destruct (page startWith) eqn:H1; cbv zeta; rewrite ?detect_second;
    try destruct (page (other startWith)) eqn:H2; cbn.
  all: repeat split; try (intros; discriminate); auto.
  all: try (intros [H|H]; discriminate).
  all: try (right; reflexivity).
  all: try (intros H; inversion H; fail).
Qed.

(** ** The status a bot reports when [join] ends *)

Import Bots.

Ltac status_cases jm up :=
  destruct jm as [[|?]|[|?]|]; destruct up as [[|]|[|?]]; cbn;
  repeat match goal with
         | |- context [bool_decide ?P] =>
             let b := eval vm_compute in (bool_decide P) in
             change (bool_decide P) with b
         end;
  cbn.

Ltac status_facts :=
  repeat match goal with
         | |- _ /\ _ => split
         | |- _ <-> _ => split
         | |- Forall _ _ => constructor
         | |- forall _, _ => intro
         | H : _ /\ _ |- _ => destruct H
         | H : exists _, _ |- _ => destruct H
         | H : Some _ = Some _ |- _ => injection H as <-
         | _ => progress first [reflexivity | discriminate | congruence | lia]
         | |- exists _, _ => eexists; reflexivity
         | |- exists _, _ = _ /\ _ => eexists; split; [reflexivity|]
         | H : _ ∈ [] |- _ => apply elem_of_nil in H; destruct H
         | H : _ ∈ _ :: _ |- _ => apply elem_of_cons in H as [H|H]
         | |- ~ _ => intro
         | |- _ ∈ _ =>
             solve [repeat first [apply list_elem_of_here | apply list_elem_of_further]]
         | H : ~ _ |- False => apply H
         end.

(** X19. [ZoomBot.join] resolves exactly when [joinMeeting] completed and
    the upload did not throw, whatever the upload returned; otherwise it
    rejects.  It reports the status once, or twice when the upload
    throws; every report starts with ['processing'] and none holds both
    ['finished'] and ['failed']; the last report holds ['failed'] exactly
    when [joinMeeting] threw, so an upload that throws after a finished
    recording is reported as ['finished']. *)
Theorem zoom_join_status (jm : joinMeeting_outcome) (up : upload_outcome) :
  let r := zoomJoin jm up in
  (r.2 = JoinResolves <-> jm = Completes /\ exists ok, up = UploadReturns ok)
  /\ Forall (fun st => head st = Some StProcessing
                       /\ ~ (StFinished ∈ st /\ StFailed ∈ st)) (reported r.1)
  /\ (1 <= length (reported r.1) <= 2)%nat
  /\ (length (reported r.1) = 2%nat <-> jm = Completes /\ exists e, up = UploadThrows e)
  /\ (forall st, last (reported r.1) = Some st -> (StFailed ∈ st <-> jm <> Completes))
  /\ (HandleLobbyError ∈ r.1 <-> r.2 = JoinRejects LobbyRetryError).
Proof.
  status_cases jm up; status_facts.
Qed.

(** X20. [MicrosoftTeamsBot.join] resolves exactly when [joinMeeting]
    completed and the upload returned a truthy result.  Every report
    starts with ['processing'] and none holds both ['finished'] and
    ['failed'].  When the upload of a finished recording returns a falsy
    result, ['finished'] is replaced by ['failed'] and reported, and the
    [catch] block then reports once more with a second ['failed']
    appended; when the upload throws instead, the one report still says
    ['finished']. *)
Theorem teams_join_status (jm : joinMeeting_outcome) (up : upload_outcome) :
  let r := teamsJoin jm up in
  (r.2 = JoinResolves <-> jm = Completes /\ up = UploadReturns true)
  /\ Forall (fun st => head st = Some StProcessing
                       /\ ~ (StFinished ∈ st /\ StFailed ∈ st)) (reported r.1)
  /\ (jm = Completes -> up = UploadReturns false ->
        reported r.1 = [[StProcessing; StJoined; StFailed];
                        [StProcessing; StJoined; StFailed; StFailed]]
        /\ r.2 = JoinRejects (OtherThrown "Recording upload failed"))
  /\ (jm = Completes -> forall e, up = UploadThrows e ->
        reported r.1 = [[StProcessing; StJoined; StFinished]]
        /\ r.2 = JoinRejects e)
  /\ (jm <> Completes ->
        exists st, reported r.1 = [st] /\ StFailed ∈ st /\ r.2 <> JoinResolves)
  /\ (HandleLobbyError ∈ r.1 <-> r.2 = JoinRejects LobbyRetryError).
Proof.
  status_cases jm up; status_facts.
Qed.

Lemma teams_join_witness :
  reported (teamsJoin Completes (UploadReturns false)).1
  = [[StProcessing; StJoined; StFailed]; [StProcessing; StJoined; StFailed; StFailed]]
  /\ (teamsJoin Completes (UploadReturns false)).2
     = JoinRejects (OtherThrown "Recording upload failed").
Proof.
  apply (teams_join_status Completes (UploadReturns false)); reflexivity.
Defined.

Lemma zoom_join_witness :
  (zoomJoin Completes (UploadReturns false)).2 = JoinResolves.
Proof.
  apply (zoom_join_status Completes (UploadReturns false)).
  split; [reflexivity|]. exists false. reflexivity.
Defined.

(** ** Storage, status and notification services *)

Import Services.

Ltac in_list :=
  repeat match goal with
         | |- _ /\ _ => split
         | |- _ <-> _ => split
         | |- forall _, _ => intro
         | H : _ /\ _ |- _ => destruct H
         | H : _ ∈ [] |- _ => apply elem_of_nil in H; destruct H
         | H : _ ∈ _ :: _ |- _ => apply elem_of_cons in H as [H|H]
         | H : _ ∈ _ ++ _ |- _ => apply elem_of_app in H as [H|H]
         | _ => progress first [reflexivity | discriminate | congruence]
         | |- _ ∈ _ =>
             solve [repeat first [apply list_elem_of_here | apply list_elem_of_further]]
         | |- NoDup _ => solve [repeat constructor; intro; in_list]
         end.

(** X21. [validateConfig] returns without throwing exactly when region
    and bucket are set and the two static credentials are either both set
    or both unset.  When it throws, the list of missing settings has no
    repetition and names a setting exactly when it is the one that is
    lacking: a credential is named only when the other one is present. *)
Theorem validateConfig_accepts_iff (s3 : S3Config) :
  (validateConfig s3 = None
   <-> truthy (region s3) = true /\ truthy (bucket s3) = true
       /\ truthy (accessKeyId s3) = truthy (secretAccessKey s3))
  /\ NoDup (missingKeys s3)
  /\ ("S3_REGION" ∈ missingKeys s3 <-> truthy (region s3) = false)
  /\ ("S3_BUCKET_NAME" ∈ missingKeys s3 <-> truthy (bucket s3) = false)
  /\ ("S3_ACCESS_KEY_ID" ∈ missingKeys s3
      <-> truthy (accessKeyId s3) = false /\ truthy (secretAccessKey s3) = true)
  /\ ("S3_SECRET_ACCESS_KEY" ∈ missingKeys s3
      <-> truthy (secretAccessKey s3) = false /\ truthy (accessKeyId s3) = true).
Proof.
  unfold validateConfig, missingKeys.
  destruct (truthy (region s3)), (truthy (bucket s3)),
    (truthy (accessKeyId s3)), (truthy (secretAccessKey s3)); cbn.
  all: in_list.
Qed.

(** X22. On a configuration that [validateConfig] accepts, [uploadFile]
    never throws its configuration error: it returns whether the upload
    went through.  It passes explicit credentials to the client exactly
    when an access key is configured (the secret then is too), and
    otherwise leaves the default provider chain in place. *)
Theorem uploadFile_after_validateConfig (s3 : S3Config) (done : bool) :
  validateConfig s3 = None ->
  exists client,
    uploadFile s3 done = UploadFinished done client
    /\ cc_region client = region s3
    /\ cc_credentials client
       = (if truthy (accessKeyId s3) then Some (accessKeyId s3, secretAccessKey s3)
          else None)
    /\ (truthy (accessKeyId s3) = false -> truthy (secretAccessKey s3) = false).
Proof.
  unfold validateConfig, missingKeys, uploadFile.
  destruct (truthy (region s3)), (truthy (bucket s3)),
    (truthy (accessKeyId s3)), (truthy (secretAccessKey s3)); cbn;
    intros H; try discriminate H.
  all: eexists; repeat split; try reflexivity; intros; congruence.
Qed.

Lemma uploadFile_witness :
  let s3 := mkS3Config (Some "eu-west-1") (Some "recordings") None None None false in
  exists client,
    uploadFile s3 true = UploadFinished true client /\ cc_credentials client = None.
Proof.
  intros s3.
  destruct (uploadFile_after_validateConfig s3 true) as (client & H1 & _ & H3 & _).
  - reflexivity.
  - exists client. split; [exact H1|exact H3].
Defined.

(** What one call answers when the base URL is set. *)
Lemma patchAll_configured (base : option string) (apis : list api_outcome) :
  truthy base = true ->
  forall warned,
  (patchAll base warned apis).1 = answerOf <$> apis
  /\ (InfoAuthBaseMissing ∉ (patchAll base warned apis).2)
  /\ apiCalls (patchAll base warned apis).2 = length apis.
Proof.
  intros Hb. induction apis as [|api apis IH]; intros warned.
  - cbn. repeat split. apply not_elem_of_nil.
  - cbn [patchAll]. unfold patchBotStatus, ensureAuthBaseConfigured. rewrite Hb. cbn.
    destruct (IH warned) as (H1 & H2 & H3).
    destruct api as [b|]; cbn; rewrite H1, H3; (split; [reflexivity|]);
      (split; [|reflexivity]).
    + intros Hin. apply elem_of_cons in Hin as [Hin|Hin]; [discriminate|auto].
    + intros Hin. apply elem_of_cons in Hin as [Hin|Hin]; [discriminate|].
      apply elem_of_cons in Hin as [Hin|Hin]; [discriminate|auto].
Qed.

Lemma patchAll_warned (base : option string) (apis : list api_outcome) :
  truthy base = false ->
  patchAll base true apis = (const false <$> apis, []).
Proof.
  intros Hb. induction apis as [|api apis IH]; [reflexivity|].
  cbn [patchAll]. unfold patchBotStatus, ensureAuthBaseConfigured. rewrite Hb. cbn.
  rewrite IH. reflexivity.
Qed.

(** X23. [patchBotStatus] and [addBotLog] never throw.  While
    AUTH_BASE_URL_V2 is not set, any sequence of calls answers [false]
    each time, makes no HTTP call, and logs the notice once, on the first
    call.  When it is set, each call makes one HTTP call and answers what
    the API said, or [false] if the call failed, and the notice is never
    logged. *)
Theorem patchBotStatus_calls (base : option string) (apis : list api_outcome) :
  let r := patchAll base false apis in
  if truthy base
  then r.1 = answerOf <$> apis
       /\ (InfoAuthBaseMissing ∉ r.2)
       /\ apiCalls r.2 = length apis
  else r.1 = const false <$> apis
       /\ apiCalls r.2 = 0%nat
       /\ r.2 = match apis with [] => [] | _ => [InfoAuthBaseMissing] end.
Proof.
  cbv zeta. destruct (truthy base) eqn:Hb.
  - apply patchAll_configured. exact Hb.
  - destruct apis as [|api apis]; [repeat split; reflexivity|].
    cbn [patchAll]. unfold patchBotStatus, ensureAuthBaseConfigured. rewrite Hb. cbn.
    rewrite (patchAll_warned base apis Hb). repeat split; reflexivity.
Qed.

(** X24. [rpushToRedisList] never uses database 0: whenever it creates a
    client, notifications are enabled, a URI is set, and the database is
    the configured number, with 0 replaced by 1.  It pushes, to the
    configured list, only on a client that connected; and it quits
    exactly the clients it managed to create, also when connecting or
    pushing fails. *)
Theorem rpush_never_database_zero (cfg : RedisNotifyConfig) (fails : redis_failure) :
  let effs := rpushToRedisList cfg fails in
  (forall uri db, CreateClient uri db ∈ effs ->
     db <> 0 /\ truthy uri = true /\ notifyRedisEnabled cfg = true
     /\ exists db0, notifyRedisDb cfg = Some db0 /\ db = (if db0 =? 0 then 1 else db0))
  /\ (forall l, RPush l ∈ effs ->
        l = notifyRedisList cfg /\ Connect ∈ effs
        /\ (fails = NoFailure \/ fails = RPushThrows))
  /\ (Quit ∈ effs <-> Connect ∈ effs)
  /\ (Connect ∈ effs -> last effs = Some Quit).
Proof.
  cbv zeta. unfold rpushToRedisList.
  destruct (notifyRedisEnabled cfg); cbn; [|in_list].
  destruct (truthy (notifyRedisUri cfg)) eqn:Hu1; cbn.
  - rewrite Hu1. cbn. destruct (notifyRedisDb cfg) as [db0|]; [|in_list].
    destruct (Z.eqb_spec db0 0) as [Hz|Hz]; destruct fails; cbn; in_list;
      try lia; auto;
      match goal with
      | H : CreateClient _ _ = CreateClient _ _ |- _ => injection H as -> ->
      end;
      exists db0; (split; [reflexivity|]); destruct (Z.eqb_spec db0 0); first [reflexivity|lia].
  - destruct (truthy (redisUri cfg)) eqn:Hu2; cbn; [|in_list].
    destruct (notifyRedisDb cfg) as [db0|]; [|in_list].
    destruct (Z.eqb_spec db0 0) as [Hz|Hz]; destruct fails; cbn; in_list;
      try lia; auto;
      match goal with
      | H : CreateClient _ _ = CreateClient _ _ |- _ => injection H as -> ->
      end;
      exists db0; (split; [reflexivity|]); destruct (Z.eqb_spec db0 0); first [reflexivity|lia].
Qed.

(** ** The audio silence monitor of the Teams bot *)

Import Silence.

Lemma monitor_run_app (needed : nat) (evs1 evs2 : list monitor_event) (s : Monitor) :
  monitor_run needed (evs1 ++ evs2) s =
  match monitor_run needed evs1 s with
  | Some s1 => monitor_run needed evs2 s1
  | None => None
  end.
Proof.
  revert s. induction evs1 as [|ev evs1 IH]; intros s; cbn; [reflexivity|].
  destruct (monitor_step needed ev s); [apply IH|reflexivity].
Qed.

Lemma silentAtEnd_snoc (evs : list monitor_event) (ev : monitor_event) :
  silentAtEnd (evs ++ [ev]) =
  match ev with
  | MonitorCheckEnds (PeakRead parsed) =>
      if peakLevel parsed <? silenceThreshold then S (silentAtEnd evs) else 0%nat
  | _ => silentAtEnd evs
  end.
Proof.
  unfold silentAtEnd. rewrite rev_app_distr. cbn. destruct ev as [|[p|]]; reflexivity.
Qed.

(** The counter is the number of silent reads since the last loud one. *)
Lemma monitor_counter (needed : nat) (evs : list monitor_event) :
  forall s, monitor_run needed evs monitorStart = Some s ->
            consecutiveSilentChecks s = silentAtEnd evs.
Proof.
  induction evs as [|ev evs IH] using rev_ind; intros s Hrun.
  - injection Hrun as <-. reflexivity.
  - rewrite monitor_run_app in Hrun.
    destruct (monitor_run needed evs monitorStart) as [s1|] eqn:H1; [|discriminate].
    specialize (IH s1 eq_refl). rewrite silentAtEnd_snoc. cbn in Hrun.
    destruct (monitor_step needed ev s1) as [s2|] eqn:H2; [|discriminate].
    injection Hrun as <-.
    destruct ev as [|[p|]]; cbn in H2.
    + destruct (checkInterval s1); [|discriminate]. injection H2 as <-. exact IH.
    + destruct (checksInFlight s1) as [|k]; [discriminate|].
      destruct (peakLevel p <? silenceThreshold).
      * destruct (needed <=? S (consecutiveSilentChecks s1))%nat;
          injection H2 as <-; cbn; rewrite IH; reflexivity.
      * injection H2 as <-. reflexivity.
    + destruct (checksInFlight s1) as [|k]; [discriminate|]. injection H2 as <-. exact IH.
Qed.

(** X25. The silence monitor ends the meeting only on a silent read that
    completes a run of at least [checksNeeded] reads below the threshold
    of 200 with no louder read in between (failed checks neither count
    nor reset); its counter is always the length of the current such
    run; and once it has ended the meeting its interval is cleared. *)
Theorem silence_monitor_ends_after_run (needed : nat) (evs : list monitor_event)
    (s : Monitor) :
  monitor_run needed evs monitorStart = Some s ->
  consecutiveSilentChecks s = silentAtEnd evs
  /\ (meetingEnded s = true ->
        checkInterval s = false
        /\ monitor_step needed MonitorTick s = None
        /\ exists pre post, evs = pre ++ post
                            /\ (1 <= silentAtEnd pre)%nat
                            /\ (needed <= silentAtEnd pre)%nat)
  /\ (meetingEnded s = false -> checkInterval s = true).
Proof.
  intros Hrun. split; [apply (monitor_counter needed evs s Hrun)|].
  revert s Hrun. induction evs as [|ev evs IH] using rev_ind; intros s Hrun.
  - injection Hrun as <-. cbn. split; [discriminate|reflexivity].
  - pose proof Hrun as Hall. rewrite monitor_run_app in Hrun.
    destruct (monitor_run needed evs monitorStart) as [s1|] eqn:H1; [|discriminate].
    destruct (IH s1 eq_refl) as [Hended Hopen]. cbn in Hrun.
    destruct (monitor_step needed ev s1) as [s2|] eqn:H2; [|discriminate].
    injection Hrun as <-.
    assert (Hkeep : meetingEnded s1 = true ->
              checkInterval s2 = checkInterval s1 /\ meetingEnded s2 = true).
    { intros He. destruct (Hended He) as (Hci & _).
      destruct ev as [|[p|]]; cbn in H2.
      - rewrite Hci in H2. discriminate.
      - destruct (checksInFlight s1) as [|k]; [discriminate|].
        destruct (peakLevel p <? silenceThreshold);
          [destruct (needed <=? S (consecutiveSilentChecks s1))%nat|];
          injection H2 as <-; cbn; auto.
      - destruct (checksInFlight s1) as [|k]; [discriminate|].
        injection H2 as <-. cbn. auto. }
    destruct (meetingEnded s1) eqn:He1.
    + destruct (Hkeep eq_refl) as [Hci He2]. destruct (Hended eq_refl) as (Hc1 & _ & Hex).
      split; [|rewrite He2; discriminate]. intros _.
      split; [congruence|]. split; [cbn; rewrite Hci, Hc1; reflexivity|].
      destruct Hex as (pre & post & -> & Hp1 & Hp2).
      exists pre, (post ++ [ev]). rewrite app_assoc. auto.
    + specialize (Hopen eq_refl).
      pose proof (monitor_counter needed (evs ++ [ev]) s2 Hall) as Hcnt.
      pose proof (monitor_counter needed evs s1 H1) as Hcnt1.
      destruct ev as [|[p|]]; cbn in H2.
      * rewrite Hopen in H2. injection H2 as <-. cbn. rewrite He1.
        split; [discriminate|reflexivity].
      * destruct (checksInFlight s1) as [|k]; [discriminate|].
        destruct (peakLevel p <? silenceThreshold) eqn:Hp.
        -- destruct (Nat.leb_spec needed (S (consecutiveSilentChecks s1))) as [Hn|Hn];
             injection H2 as <-; cbn in *.
           ++ split; [|discriminate]. intros _. split; [reflexivity|].
              split; [reflexivity|].
              exists (evs ++ [MonitorCheckEnds (PeakRead p)]), [].
              rewrite app_nil_r. split; [reflexivity|]. rewrite <- Hcnt. lia.
           ++ rewrite He1. split; [discriminate|auto].
        -- injection H2 as <-. cbn. rewrite He1. split; [discriminate|auto].
      * destruct (checksInFlight s1) as [|k]; [discriminate|].
        injection H2 as <-. cbn. rewrite He1. split; [discriminate|auto].
Qed.

Lemma silence_monitor_witness :
  let quiet := MonitorCheckEnds (PeakRead (Some 12)) in
  let loud := MonitorCheckEnds (PeakRead (Some 900)) in
  let evs := [MonitorTick; quiet; MonitorTick; loud; MonitorTick; quiet;
              MonitorTick; MonitorCheckEnds CheckFailed; MonitorTick; quiet] in
  exists s, monitor_run 2 evs monitorStart = Some s
            /\ meetingEnded s = true
            /\ consecutiveSilentChecks s = 2%nat.
Proof.
  intros quiet loud evs.
  destruct (monitor_run 2 evs monitorStart) as [s|] eqn:Hrun; [|discriminate].
  exists s. split; [reflexivity|].
  destruct (silence_monitor_ends_after_run 2 evs s Hrun) as (Hc & _ & _).
  split; [|rewrite Hc; reflexivity].
  vm_compute in Hrun. injection Hrun as <-. reflexivity.
Defined.

Lemma rpush_witness :
  let cfg := mkRedisNotifyConfig true None (Some "redis://cache:6379") (Some 0) "recordings" in
  rpushToRedisList cfg ConnectThrows
  = [WarnDbZero; CreateClient (Some "redis://cache:6379") 1; Connect; ErrorPush; Quit]
  /\ 1 <> 0.
Proof.
  intros cfg. split; [reflexivity|].
  destruct (rpush_never_database_zero cfg ConnectThrows) as (Hdb & _).
  apply (Hdb (Some "redis://cache:6379") 1).
  cbn. apply list_elem_of_further, list_elem_of_here.
Defined.
